(** * Deals pipeline of the CRM backend (src/backend/deals.js)

    A shallow embedding of the Express router of [deals.js] and of the SQL
    statements it sends to PostgreSQL.  The deals table is a list of rows in
    physical (insertion) order; a handler is a function from the request and
    the table to a response and the new table.

    A text the code trims, lower-cases or matches against a pattern (a
    title, a description, a search string) is its sequence of Unicode code
    points ([text]); white space is the full set [String.prototype.trim]
    removes, LIKE matches character by character, and the two case
    mappings, JavaScript's [toLowerCase] and PostgreSQL's [LOWER], are
    parameters.  A string the code only compares for equality (an id, a
    status, a date) is a [string].  [numeric] columns are rationals ([Q]),
    compared with [==] as SQL compares numerics by value.  Timestamps are
    integers.

    Every statement is taken to run: a query the database refuses (a value
    outside the type of its column, a lost connection), which a handler
    answers with 500, is outside the model. *)

From Stdlib Require Import List String Ascii Bool NArith ZArith QArith Lia.
From Stdlib Require Import Permutation Sorted.
Import ListNotations.

Open Scope string_scope.
Open Scope Z_scope.

(** ** Texts *)

(** A text as its Unicode code points. *)
Definition text : Type := list N.

(** The text of an ASCII literal. *)
Definition text_of_string (s : string) : text :=
  map N_of_ascii (list_ascii_of_string s).

(** ** JavaScript values *)

Module Js.

(** [x || y] on a string that may be undefined or null: the empty string
    is falsy. *)
Definition or_else (x : option string) (y : option string) : option string :=
  match x with
  | Some "" => y
  | Some s => Some s
  | None => y
  end.

(** [x || d] with a string default. *)
Definition or_default (x : option string) (d : string) : string :=
  match x with
  | Some "" => d
  | Some s => s
  | None => d
  end.

(** [x ?? d]: only undefined and null are replaced. *)
Definition nullish {A : Type} (x : option A) (d : A) : A :=
  match x with
  | Some v => v
  | None => d
  end.

(** Truthiness of a string that may be absent: [!x] is [negb (truthy x)]. *)
Definition truthy (x : option string) : bool :=
  match x with
  | Some "" => false
  | Some _ => true
  | None => false
  end.

(** Truthiness of a text that may be absent: the empty text is falsy. *)
Definition truthy_text (x : option text) : bool :=
  match x with
  | Some (_ :: _) => true
  | Some [] => false
  | None => false
  end.

(** [x || null] on a text that may be absent. *)
Definition or_null (x : option text) : option text :=
  match x with
  | Some (c :: s) => Some (c :: s)
  | Some [] => None
  | None => None
  end.

(** The WhiteSpace code points of ECMAScript: TAB, VT, FF, ZWNBSP and the
    space separators (SPACE, NBSP, OGHAM SPACE MARK, EN QUAD to HAIR SPACE,
    NARROW NBSP, MEDIUM MATHEMATICAL SPACE, IDEOGRAPHIC SPACE). *)
Definition WHITE_SPACE : list N :=
  [9; 11; 12; 65279;
   32; 160; 5760;
   8192; 8193; 8194; 8195; 8196; 8197; 8198; 8199; 8200; 8201; 8202;
   8239; 8287; 12288]%N.

(** The LineTerminator code points: LF, CR, LINE SEPARATOR and PARAGRAPH
    SEPARATOR. *)
Definition LINE_TERMINATOR : list N := [10; 13; 8232; 8233]%N.

(** The characters [String.prototype.trim] removes: white space and line
    terminators. *)
Definition is_space (c : N) : bool :=
  existsb (N.eqb c) (WHITE_SPACE ++ LINE_TERMINATOR).

Fixpoint trimStart (s : text) : text :=
  match s with
  | c :: s' => if is_space c then trimStart s' else s
  | [] => []
  end.

(** [trimEnd] drops the longest all-blank suffix. *)
Fixpoint trimEnd (s : text) : text :=
  match s with
  | c :: s' =>
      match trimEnd s' with
      | [] => if is_space c then [] else [c]
      | r => c :: r
      end
  | [] => []
  end.

Definition trim (s : text) : text := trimEnd (trimStart s).

(** [Array.prototype.includes] on an array of strings; an absent value
    ([undefined]) is never a member. *)
Definition includes (l : list string) (x : option string) : bool :=
  match x with
  | Some s => existsb (String.eqb s) l
  | None => false
  end.

End Js.

(** ** Statuses *)

(** The PostgreSQL enum [deal_status]. *)
Inductive deal_status : Type :=
  | prospect | qualification | proposition | negociation | gagne | perdu.

Definition ALLOWED_STATUSES : list string :=
  ["prospect"; "qualification"; "proposition"; "negociation"; "gagne"; "perdu"].

(** [status::text] *)
Definition status_text (s : deal_status) : string :=
  match s with
  | prospect => "prospect"
  | qualification => "qualification"
  | proposition => "proposition"
  | negociation => "negociation"
  | gagne => "gagne"
  | perdu => "perdu"
  end.

Definition all_statuses : list deal_status :=
  [prospect; qualification; proposition; negociation; gagne; perdu].

(** [$n::deal_status]: the cast of a text parameter to the enum; [None] is
    the database error raised for a label outside the enum. *)
Definition cast_deal_status (s : string) : option deal_status :=
  find (fun st => String.eqb (status_text st) s) all_statuses.

Definition deal_status_eqb (a b : deal_status) : bool :=
  match a, b with
  | prospect, prospect | qualification, qualification
  | proposition, proposition | negociation, negociation
  | gagne, gagne | perdu, perdu => true
  | _, _ => false
  end.

(** [status IN ('gagne','perdu')] *)
Definition is_closed (s : deal_status) : bool :=
  match s with
  | gagne | perdu => true
  | _ => false
  end.

(** ** Rows of the deals table *)

Record deal : Type := mkDeal {
  id : string;
  title : text;
  description : option text;
  status : deal_status;
  amount : Q;
  probability : Q;
  weighted_amount : Q;
  contact_id : option string;
  company_id : option string;
  assigned_to : option string;
  expected_close_date : option string;
  closed_at : option Z;
  created_at : Z;
  updated_at : Z
}.

(** ** Requests and responses *)

(** The fields a handler destructures from [req.body]; [None] is a field
    that is absent or null. *)
Module Body.
Record t : Type := mk {
  title : option text;
  description : option text;
  status : option string;
  amount : option Q;
  contact_id : option string;
  company_id : option string;
  assigned_to : option string;
  expected_close_date : option string
}.
End Body.

(** [res.status(code).json(payload)] and [res.status(code).json({error})]. *)
Inductive response (A : Type) : Type :=
  | Reply (code : Z) (payload : A)
  | Fail (code : Z) (error : string).
Arguments Reply {A} code payload.
Arguments Fail {A} code error.

(** The typed failures of the specification, as the HTTP layer sends them. *)
Definition ValidationError {A : Type} : response A := Fail 400 "Titre requis".
Definition InvalidStatus {A : Type} : response A := Fail 400 "Statut invalide".
Definition NotFound {A : Type} : response A := Fail 404 "Deal introuvable".

(** The catch-all of every handler: [res.status(500).json({error: e.message})]. *)
Definition ServerError {A : Type} (message : string) : response A := Fail 500 message.

(** ** SQL building blocks *)

Module Sql.

(** [COALESCE(x, d)] *)
Definition COALESCE (x : option Q) (d : Q) : Q :=
  match x with
  | Some v => v
  | None => d
  end.

(** [SUM(e)] over the values of [e], row by row: NULL inputs are skipped
    and the sum of no value at all is NULL. *)
Definition SUM (xs : list (option Q)) : option Q :=
  fold_left
    (fun acc x =>
       match x, acc with
       | None, _ => acc
       | Some v, None => Some v
       | Some v, Some a => Some (a + v)%Q
       end)
    xs None.

(** [COUNT(e)]: the number of rows where [e] is not NULL. *)
Definition COUNT {A : Type} (xs : list (option A)) : Z :=
  Z.of_nat
    (List.length
       (filter (fun x => match x with Some _ => true | None => false end) xs)).

(** [COUNT( * )] *)
Definition COUNT_star {A : Type} (rows : list A) : Z := Z.of_nat (List.length rows).

(** [CASE WHEN c THEN v END]: NULL when the condition does not hold. *)
Definition CASE_WHEN {A : Type} (c : bool) (v : A) : option A :=
  if c then Some v else None.

(** [ARRAY_POSITION(arr, x)]: the 1-based index of the first element equal
    to [x], NULL when there is none. *)
Fixpoint ARRAY_POSITION (arr : list string) (x : string) : option nat :=
  match arr with
  | [] => None
  | a :: arr' =>
      if String.eqb a x then Some 1%nat
      else option_map S (ARRAY_POSITION arr' x)
  end.

(** Ascending order on a nullable integer key: NULLs sort last. *)
Definition nulls_last_leb (a b : option nat) : bool :=
  match a, b with
  | Some x, Some y => (x <=? y)%nat
  | Some _, None => true
  | None, Some _ => false
  | None, None => true
  end.

(** [ORDER BY]: a stable insertion sort under the total preorder [leb].
    SQL leaves the order of ties open; the model keeps them in input
    order. *)
Section OrderBy.
Context {A : Type} (leb : A -> A -> bool).

Fixpoint insert_sorted (x : A) (l : list A) : list A :=
  match l with
  | [] => [x]
  | y :: l' => if leb x y then x :: l else y :: insert_sorted x l'
  end.

Fixpoint ORDER_BY (l : list A) : list A :=
  match l with
  | [] => []
  | x :: l' => insert_sorted x (ORDER_BY l')
  end.
End OrderBy.

(** [a LEFT JOIN b ON on]: every left row paired with each matching right
    row, or with NULLs when no right row matches. *)
Definition LEFT_JOIN {A B C : Type} (on : A -> B -> bool)
    (pair : A -> option B -> C) (l : list A) (r : list B) : list C :=
  flat_map
    (fun a =>
       match filter (on a) r with
       | [] => [pair a None]
       | ms => map (fun b => pair a (Some b)) ms
       end)
    l.

(** [key = col] where the column may be NULL: NULL equals nothing. *)
Definition eq_nullable (key : string) (col : option string) : bool :=
  match col with
  | Some v => String.eqb key v
  | None => false
  end.

(** The characters LIKE gives a meaning to: [%], [_] and the escape
    character, the backslash. *)
Definition PERCENT : N := 37%N.
Definition UNDERSCORE : N := 95%N.
Definition BACKSLASH : N := 92%N.

(** A LIKE pattern is ill-formed when it ends in a lone escape character;
    PostgreSQL raises an error when matching reaches it. *)
Fixpoint like_wellformed (p : text) : bool :=
  match p with
  | [] => true
  | c :: p1 =>
      if N.eqb c BACKSLASH then
        match p1 with
        | [] => false
        | _ :: p2 => like_wellformed p2
        end
      else like_wellformed p1
  end.

(** [t LIKE p] with the default escape character: [%] matches any run of
    characters, [_] any one character, a backslash makes the next pattern
    character literal.  A lone backslash at the end matches nothing. *)
Fixpoint like (p : text) (t : text) {struct p} : bool :=
  match p with
  | [] => match t with [] => true | _ :: _ => false end
  | c :: p1 =>
      if N.eqb c PERCENT then
        (fix any (u : text) : bool :=
           like p1 u || match u with [] => false | _ :: u' => any u' end) t
      else if N.eqb c UNDERSCORE then
        match t with [] => false | _ :: t' => like p1 t' end
      else if N.eqb c BACKSLASH then
        match p1 with
        | [] => false
        | e :: p2 =>
            match t with
            | [] => false
            | x :: t' => N.eqb e x && like p2 t'
            end
        end
      else
        match t with
        | [] => false
        | x :: t' => N.eqb c x && like p1 t'
        end
  end.

(** [t LIKE p] *)
Definition LIKE (t p : text) : bool := like p t.

End Sql.

(** ** Writes to the deals table *)

Definition cast_error : string := "invalid input value for enum deal_status".

Section Writes.

(** Modelled from the spec: the definition of the deals table (its column
    defaults and derived columns) is not under src/.  The specification
    gives [probability] as derived alongside the status, [weighted_amount]
    as [amount * probability / 100] maintained by the store, [closed_at]
    null at creation, [id] assigned at creation and [created_at],
    [updated_at] as lifecycle timestamps.  The probability of each stage
    is a parameter of the development. *)
Variable probability_of : deal_status -> Q.

(** Modelled from the spec: the columns the store maintains on every row
    it writes. *)
Definition maintained (now : Z) (r : deal) : deal :=
  {| id := id r;
     title := title r;
     description := description r;
     status := status r;
     amount := amount r;
     probability := probability_of (status r);
     weighted_amount := (amount r * probability_of (status r) / 100)%Q;
     contact_id := contact_id r;
     company_id := company_id r;
     assigned_to := assigned_to r;
     expected_close_date := expected_close_date r;
     closed_at := closed_at r;
     created_at := created_at r;
     updated_at := now |}.

(** [INSERT INTO deals (title, description, status, amount, contact_id,
    company_id, assigned_to, expected_close_date) VALUES ($1, ..., $8)
    RETURNING *].  The statement names no other column: [id], [closed_at]
    and the timestamps take their defaults ([new_id] is the identifier the
    database generates, [now] the time of the statement). *)
Definition INSERT_deal (new_id : string) (now : Z)
    (p1 : text) (p2 : option text) (p3 : deal_status) (p4 : Q)
    (p5 p6 p7 p8 : option string) (db : list deal) : deal * list deal :=
  let row :=
    maintained now
      {| id := new_id; title := p1; description := p2; status := p3;
         amount := p4; probability := 0%Q; weighted_amount := 0%Q;
         contact_id := p5; company_id := p6; assigned_to := p7;
         expected_close_date := p8;
         closed_at := None; created_at := now; updated_at := now |} in
  (row, (db ++ [row])%list).

(** [CASE WHEN $n::deal_status IN ('gagne','perdu') THEN now() ELSE NULL END] *)
Definition closed_at_for (now : Z) (s : deal_status) : option Z :=
  if is_closed s then Some now else None.

(** [UPDATE deals SET ... WHERE id = $k RETURNING *] with the assignment
    [set]: the rows returned and the new table. *)
Definition UPDATE_where_id (now : Z) (set : deal -> deal) (key : string)
    (db : list deal) : list deal * list deal :=
  (map (fun r => maintained now (set r)) (filter (fun r => String.eqb (id r) key) db),
   map (fun r => if String.eqb (id r) key then maintained now (set r) else r) db).

(** The SET list of PUT /deals/:id. *)
Definition set_all (now : Z) (p1 : text) (p2 : option text)
    (p3 : deal_status) (p4 : Q) (p5 p6 p7 p8 : option string) (r : deal) : deal :=
  {| id := id r; title := p1; description := p2; status := p3;
     amount := p4; probability := probability r;
     weighted_amount := weighted_amount r;
     contact_id := p5; company_id := p6; assigned_to := p7;
     expected_close_date := p8;
     closed_at := closed_at_for now p3;
     created_at := created_at r; updated_at := updated_at r |}.

(** The SET list of PATCH /deals/:id/status. *)
Definition set_status (now : Z) (p1 : deal_status) (r : deal) : deal :=
  {| id := id r; title := title r; description := description r;
     status := p1;
     amount := amount r; probability := probability r;
     weighted_amount := weighted_amount r;
     contact_id := contact_id r; company_id := company_id r;
     assigned_to := assigned_to r;
     expected_close_date := expected_close_date r;
     closed_at := closed_at_for now p1;
     created_at := created_at r; updated_at := updated_at r |}.

(** POST /deals (the specification's [create]). *)
Definition post_deals (new_id : string) (now : Z) (body : Body.t)
    (db : list deal) : response deal * list deal :=
  match option_map Js.trim (Body.title body) with
  | None | Some [] => (ValidationError, db)
  | Some trimmed =>
      let finalStatus := Js.or_default (Body.status body) "prospect" in
      if negb (Js.includes ALLOWED_STATUSES (Some finalStatus)) then
        (InvalidStatus, db)
      else
        match cast_deal_status finalStatus with
        | None => (ServerError cast_error, db)
        | Some st =>
            let '(row, db') :=
              INSERT_deal new_id now
                trimmed
                (Js.or_null (option_map Js.trim (Body.description body)))
                st
                (Js.nullish (Body.amount body) 0%Q)
                (Js.or_else (Body.contact_id body) None)
                (Js.or_else (Body.company_id body) None)
                (Js.or_else (Body.assigned_to body) None)
                (Js.or_else (Body.expected_close_date body) None)
                db in
            (Reply 201 row, db')
        end
  end.

(** PUT /deals/:id (the specification's [update]). *)
Definition put_deal (now : Z) (req_id : string) (body : Body.t)
    (db : list deal) : response deal * list deal :=
  match option_map Js.trim (Body.title body) with
  | None | Some [] => (ValidationError, db)
  | Some trimmed =>
      if Js.truthy (Body.status body)
         && negb (Js.includes ALLOWED_STATUSES (Body.status body)) then
        (InvalidStatus, db)
      else
        let finalStatus := Js.or_default (Body.status body) "prospect" in
        match cast_deal_status finalStatus with
        | None => (ServerError cast_error, db)
        | Some st =>
            let '(rows, db') :=
              UPDATE_where_id now
                (set_all now
                   trimmed
                   (Js.or_null (option_map Js.trim (Body.description body)))
                   st
                   (Js.nullish (Body.amount body) 0%Q)
                   (Js.or_else (Body.contact_id body) None)
                   (Js.or_else (Body.company_id body) None)
                   (Js.or_else (Body.assigned_to body) None)
                   (Js.or_else (Body.expected_close_date body) None))
                req_id db in
            match rows with
            | [] => (NotFound, db')
            | row :: _ => (Reply 200 row, db')
            end
        end
  end.

(** PATCH /deals/:id/status (the specification's [transitionStatus]);
    [status] is the field of that name in the body. *)
Definition patch_deal_status (now : Z) (req_id : string)
    (status : option string) (db : list deal) : response deal * list deal :=
  if negb (Js.includes ALLOWED_STATUSES status) then (InvalidStatus, db)
  else
    match cast_deal_status (Js.nullish status "") with
    | None => (ServerError cast_error, db)
    | Some st =>
        let '(rows, db') := UPDATE_where_id now (set_status now st) req_id db in
        match rows with
        | [] => (NotFound, db')
        | row :: _ => (Reply 200 row, db')
        end
    end.

End Writes.

(** DELETE /deals/:id: [DELETE FROM deals WHERE id=$1 RETURNING *]. *)
Definition delete_deal (req_id : string) (db : list deal)
    : response bool * list deal :=
  let rows := filter (fun r => String.eqb (id r) req_id) db in
  let db' := filter (fun r => negb (String.eqb (id r) req_id)) db in
  match rows with
  | [] => (NotFound, db')
  | _ :: _ => (Reply 200 true, db')
  end.

(** ** Reads *)

(** The tables of the other subsystems, as far as the deal queries read
    them. *)
Module Contact.
Record t : Type := mk {
  id : string;
  first_name : option string;
  last_name : option string;
  email : option string
}.
End Contact.

Module Company.
Record t : Type := mk { id : string; name : option string }.
End Company.

Module User.
Record t : Type := mk {
  id : string;
  first_name : option string;
  last_name : option string
}.
End User.

Record directory : Type := mkDirectory {
  contacts : list Contact.t;
  companies : list Company.t;
  users : list User.t
}.

(** A row of [SELECT d.*, c.first_name, c.last_name, c.email AS
    contact_email, co.name AS company_name, u.first_name AS
    assigned_first_name, u.last_name AS assigned_last_name]. *)
Record deal_view : Type := mkView {
  deal_of : deal;
  first_name : option string;
  last_name : option string;
  contact_email : option string;
  company_name : option string;
  assigned_first_name : option string;
  assigned_last_name : option string
}.

Definition column {A B : Type} (f : A -> option B) (x : option A) : option B :=
  match x with
  | Some a => f a
  | None => None
  end.

(** [FROM deals d LEFT JOIN contacts c ON c.id = d.contact_id
    LEFT JOIN companies co ON co.id = d.company_id
    LEFT JOIN users u ON u.id = d.assigned_to] *)
Definition deals_joined (dir : directory) (db : list deal) : list deal_view :=
  let j1 :=
    Sql.LEFT_JOIN (fun r c => Sql.eq_nullable (Contact.id c) (contact_id r))
      (fun r c => (r, c)) db (contacts dir) in
  let j2 :=
    Sql.LEFT_JOIN (fun x co => Sql.eq_nullable (Company.id co) (company_id (fst x)))
      (fun x co => (x, co)) j1 (companies dir) in
  Sql.LEFT_JOIN
    (fun x u => Sql.eq_nullable (User.id u) (assigned_to (fst (fst x))))
    (fun x u =>
       let '(r, c, co) := x in
       {| deal_of := r;
          first_name := column Contact.first_name c;
          last_name := column Contact.last_name c;
          contact_email := column Contact.email c;
          company_name := column Company.name co;
          assigned_first_name := column User.first_name u;
          assigned_last_name := column User.last_name u |})
    j2 (users dir).

(** The query string of GET /deals. *)
Module Query.
Record t : Type := mk {
  status : option string;
  assigned_to : option string;
  q : option text
}.
End Query.

Section Search.

(** JavaScript's [String.prototype.toLowerCase], the case mapping of the
    server's engine. *)
Variable toLowerCase : text -> text.

(** PostgreSQL's [LOWER], the case mapping of the database under its
    locale. *)
Variable LOWER : text -> text.

(** The [where] array of GET /deals, one predicate per pushed condition. *)
Definition where_clauses (query : Query.t) : list (deal -> bool) :=
  ((if Js.truthy (Query.status query)
       && Js.includes ALLOWED_STATUSES (Query.status query)
    then [fun r => String.eqb (status_text (status r)) (Js.nullish (Query.status query) "")]
    else [])
   ++
   (if Js.truthy (Query.assigned_to query)
    then [fun r => Sql.eq_nullable (Js.nullish (Query.assigned_to query) "") (assigned_to r)]
    else [])
   ++
   (if Js.truthy_text (Query.q query)
    then [fun r =>
            Sql.LIKE (LOWER (title r))
              (Sql.PERCENT
               :: toLowerCase (Js.nullish (Query.q query) []) ++ [Sql.PERCENT])]
    else []))%list.

(** [ORDER BY d.created_at DESC] *)
Definition created_desc (a b : deal_view) : bool :=
  created_at (deal_of b) <=? created_at (deal_of a).

(** GET /deals (the specification's [list]). *)
Definition get_deals (dir : directory) (query : Query.t) (db : list deal)
    : response (list deal_view) :=
  let where_ := where_clauses query in
  Reply 200
    (Sql.ORDER_BY created_desc
       (filter (fun v => forallb (fun c => c (deal_of v)) where_)
          (deals_joined dir db))).

End Search.

(** GET /deals/:id (the specification's [get]). *)
Definition get_deal (dir : directory) (req_id : string) (db : list deal)
    : response deal_view :=
  match filter (fun v => String.eqb (id (deal_of v)) req_id) (deals_joined dir db) with
  | [] => NotFound
  | v :: _ => Reply 200 v
  end.

(** The single row of the summary query of GET /deals/stats. *)
Record summary : Type := mkSummary {
  total_deals : Z;
  total_value : Q;
  weighted_value : Q;
  won_value : Q;
  active_deals : Z
}.

(** A row of the [GROUP BY status] query. *)
Record stage_row : Type := mkStage {
  stage : deal_status;
  count : Z;
  total : Q
}.

Definition summary_query (db : list deal) : summary :=
  {| total_deals := Sql.COUNT_star db;
     total_value := Sql.COALESCE (Sql.SUM (map (fun r => Some (amount r)) db)) 0;
     weighted_value :=
       Sql.COALESCE (Sql.SUM (map (fun r => Some (weighted_amount r)) db)) 0;
     won_value :=
       Sql.COALESCE
         (Sql.SUM
            (map (fun r => Sql.CASE_WHEN (deal_status_eqb (status r) gagne) (amount r)) db))
         0;
     active_deals :=
       Sql.COUNT
         (map (fun r => Sql.CASE_WHEN (negb (is_closed (status r))) 1) db) |}.

(** [GROUP BY status]: one group per distinct status, in order of first
    appearance in the table. *)
Fixpoint group_keys (db : list deal) (seen : list deal_status) : list deal_status :=
  match db with
  | [] => []
  | r :: db' =>
      if existsb (deal_status_eqb (status r)) seen then group_keys db' seen
      else status r :: group_keys db' (status r :: seen)
  end.

Definition FUNNEL : list string :=
  ["prospect"; "qualification"; "proposition"; "negociation"; "gagne"; "perdu"].

Definition funnel_leb (a b : stage_row) : bool :=
  Sql.nulls_last_leb
    (Sql.ARRAY_POSITION FUNNEL (status_text (stage a)))
    (Sql.ARRAY_POSITION FUNNEL (status_text (stage b))).

Definition by_status_query (db : list deal) : list stage_row :=
  Sql.ORDER_BY funnel_leb
    (map
       (fun s =>
          let rows := filter (fun r => deal_status_eqb (status r) s) db in
          {| stage := s;
             count := Sql.COUNT_star rows;
             total := Sql.COALESCE (Sql.SUM (map (fun r => Some (amount r)) rows)) 0 |})
       (group_keys db [])).

(** GET /deals/stats: [{summary: r.rows[0], by_status: byStatus.rows}]. *)
Definition get_deals_stats (db : list deal) : response (summary * list stage_row) :=
  Reply 200 (summary_query db, by_status_query db).

(** ** The dashboard (GET /dashboard/stats of the server) *)

Module Dashboard.





End Dashboard.

(** ** The pipeline page (frontend/src/app/pipeline/page.tsx) *)

Module PipelinePage.

Definition PIPELINE_STAGES : list deal_status :=
  [prospect; qualification; proposition; negociation; gagne].

(** [stageMap]: the object filled by [stats?.by_status.forEach(s => {
    m[s.status] = s; })], read at a status; a later row replaces an earlier
    one with the same status. *)
Definition stageMap (stats : option (summary * list stage_row))
    : deal_status -> option stage_row :=
  match stats with
  | None => fun _ => None
  | Some (_, by_status) =>
      fold_left
        (fun m s => fun k => if deal_status_eqb k (stage s) then Some s else m k)
        by_status (fun _ => None)
  end.

(** [stageMap[s]?.count ?? 0] *)
Definition stage_count (m : deal_status -> option stage_row) (s : deal_status) : Z :=
  Js.nullish (option_map count (m s)) 0.

(** [Math.max(1, ...PIPELINE_STAGES.map(s => stageMap[s]?.count ?? 0))] *)
Definition maxCount (m : deal_status -> option stage_row) : Z :=
  fold_left Z.max (map (stage_count m) PIPELINE_STAGES) 1.

End PipelinePage.

(** ** The deals page (the page that lists, creates and edits deals) *)

Module DealsPage.

(** [grouped]: six arrays, one per status, filled by
    [deals.forEach(d => g[d.status]?.push(d))]. *)
Definition grouped (deals : list deal_view) : deal_status -> list deal_view :=
  fold_left
    (fun g v => fun k =>
       if deal_status_eqb k (status (deal_of v)) then (g k ++ [v])%list else g k)
    deals (fun _ => []).

(** The local update of [onDelete]: [prev.filter(d => d.id !== id)]. *)
Definition onDelete_local (key : string) (prev : list deal_view) : list deal_view :=
  filter (fun v => negb (String.eqb (id (deal_of v)) key)) prev.

(** The query string [loadDeals] builds from the search box and the two
    selectors: a parameter is set only for a search text that is not blank
    and for a selector that is not on "all". *)
Definition loadDeals_query (q : text) (filterStatus filterUser : string)
    : Query.t :=
  Query.mk
    (if negb (String.eqb filterStatus "all") then Some filterStatus else None)
    (if negb (String.eqb filterUser "all") then Some filterUser else None)
    (if Js.truthy_text (Some (Js.trim q)) then Some (Js.trim q) else None).


Section Submit.

(** JavaScript's [parseFloat]; [None] is NaN. *)
Variable parseFloat : string -> option Q.



End Submit.

End DealsPage.

(** * Vocabulary of the specification *)

(** A white-space character: one of U+0009 to U+000D, U+0020, U+00A0,
    U+1680, U+2000 to U+200A, U+2028, U+2029, U+202F, U+205F, U+3000 and
    U+FEFF. *)
Definition blank_char (c : N) : bool :=
  (((9 <=? c) && (c <=? 13))
   || (c =? 32) || (c =? 160) || (c =? 5760)
   || ((8192 <=? c) && (c <=? 8202))
   || (c =? 8232) || (c =? 8233) || (c =? 8239) || (c =? 8287)
   || (c =? 12288) || (c =? 65279))%N.

(** A text that is empty or made of white space only. *)
Fixpoint whitespace_only (s : text) : bool :=
  match s with
  | [] => true
  | c :: s' => blank_char c && whitespace_only s'
  end.

(** The title of a create or update input is missing or blank. *)
Definition title_blank (body : Body.t) : Prop :=
  match Body.title body with
  | None => True
  | Some raw => whitespace_only raw = true
  end.

(** A text that is not empty and neither starts nor ends with white
    space. *)
Definition clean (t : text) : Prop :=
  t <> []
  /\ blank_char (hd 0%N t) = false
  /\ blank_char (last t 0%N) = false.

(** [t] is [raw] without its leading and trailing white space, and
    something is left. *)
Definition trimmed_of (raw t : text) : Prop :=
  exists a b,
    raw = (a ++ t ++ b)%list
    /\ whitespace_only a = true
    /\ whitespace_only b = true
    /\ clean t.

(** The title of a body, trimmed, when it is present and not blank. *)
Definition title_of (body : Body.t) (t : text) : Prop :=
  exists raw, Body.title body = Some raw /\ trimmed_of raw t.

(** A status is given (present and not the empty string) and it is outside
    the enumeration. *)
Definition status_rejected (body : Body.t) : Prop :=
  exists s, Body.status body = Some s /\ s <> "" /\ ~ In s ALLOWED_STATUSES.

(** The status a valid body asks for: the given member of the enumeration,
    or [prospect] when none is given. *)
Definition status_of (body : Body.t) (st : deal_status) : Prop :=
  match Body.status body with
  | None | Some "" => st = prospect
  | Some s => s = status_text st
  end.

(** The frame of a status transition: the columns it must leave alone. *)
Definition same_but_status (r r' : deal) : Prop :=
  id r' = id r /\ title r' = title r /\ description r' = description r
  /\ amount r' = amount r /\ contact_id r' = contact_id r
  /\ company_id r' = company_id r /\ assigned_to r' = assigned_to r
  /\ expected_close_date r' = expected_close_date r
  /\ created_at r' = created_at r.

(** [closed_at] is set exactly for the two closing statuses. *)
Definition closed_at_consistent (r : deal) : Prop :=
  closed_at r <> None <-> (status r = gagne \/ status r = perdu).

(** The probabilities used in the examples. *)
Definition example_probability (s : deal_status) : Q :=
  match s with
  | prospect => 10%Q
  | qualification => 25%Q
  | proposition => 50%Q
  | negociation => 75%Q
  | gagne => 100%Q
  | perdu => 0%Q
  end.

Definition example_body (title : string) (status : option string)
    (amount : option Q) : Body.t :=
  Body.mk (Some (text_of_string title)) None status amount None None None None.

(** Three deals created through POST /deals, in the order perdu, prospect,
    gagne. *)
Definition example_db : list deal :=
  let db1 := snd (post_deals example_probability "d1" 1
                    (example_body "Alpha" (Some "perdu") (Some 300%Q)) []) in
  let db2 := snd (post_deals example_probability "d2" 2
                    (example_body "Beta" None (Some 1000%Q)) db1) in
  snd (post_deals example_probability "d3" 3
         (example_body "Gamma 100%" (Some "gagne") (Some 500%Q)) db2).

(** The sum of a column. *)
Definition sum_Q (l : list Q) : Q := fold_right Qplus 0%Q l.

(** A status is present in the data. *)
Definition present (db : list deal) (s : deal_status) : bool :=
  existsb (fun r => deal_status_eqb (status r) s) db.

(** The deals at a given stage. *)
Definition at_stage (s : deal_status) (db : list deal) : list deal :=
  filter (fun r => deal_status_eqb (status r) s) db.

(** The position of a status in the canonical funnel sequence. *)
Definition rank (s : deal_status) : nat :=
  match s with
  | prospect => 1
  | qualification => 2
  | proposition => 3
  | negociation => 4
  | gagne => 5
  | perdu => 6
  end.

(** [p] is a prefix of [t]. *)
Fixpoint prefixb (p t : text) : bool :=
  match p, t with
  | [], _ => true
  | _ :: _, [] => false
  | c :: p', x :: t' => N.eqb c x && prefixb p' t'
  end.

(** [q] occurs in [t] as a substring. *)
Fixpoint substringb (q t : text) : bool :=
  prefixb q t
  || match t with
     | [] => false
     | _ :: t' => substringb q t'
     end.

(** The title contains [q] as a case-insensitive substring: once both are
    lower-cased, the title by the database and [q] by the server, [q]
    occurs in the title. *)
Definition contains_ci (toLowerCase LOWER : text -> text) (title q : text)
    : bool :=
  substringb (toLowerCase q) (LOWER title).

(** The characters LIKE gives a meaning to: the percent sign (U+0025), the
    underscore (U+005F) and the backslash (U+005C). *)
Definition is_like_meta (c : N) : bool :=
  ((c =? 37) || (c =? 95) || (c =? 92))%N.

(** A text without any of these characters. *)
Definition like_plain (q : text) : bool :=
  forallb (fun c => negb (is_like_meta c)) q.

(** A query string with [q] only. *)
Definition only_q (q : text) : Query.t := Query.mk None None (Some q).

(** The case mapping of the ASCII range, [A] to [Z] onto [a] to [z], with
    which the examples, all in ASCII, are evaluated. *)
Definition ascii_lower (s : text) : text :=
  map (fun c => if ((65 <=? c) && (c <=? 90))%N then (c + 32)%N else c) s.

Definition no_directory : directory := mkDirectory [] [] [].

(** The derived column agrees with the columns it is derived from. *)
Definition weighted_consistent (r : deal) : Prop :=
  (weighted_amount r == amount r * probability r / 100)%Q.

(** The tables the handlers can produce from the empty table. *)
Inductive reachable (probability_of : deal_status -> Q) : list deal -> Prop :=
  | reach_empty : reachable probability_of []
  | reach_post : forall db new_id now body,
      reachable probability_of db ->
      reachable probability_of (snd (post_deals probability_of new_id now body db))
  | reach_put : forall db now key body,
      reachable probability_of db ->
      reachable probability_of (snd (put_deal probability_of now key body db))
  | reach_patch : forall db now key status,
      reachable probability_of db ->
      reachable probability_of (snd (patch_deal_status probability_of now key status db))
  | reach_delete : forall db key,
      reachable probability_of db ->
      reachable probability_of (snd (delete_deal key db)).

(** The value stored for an optional reference or date: the given one, or
    NULL when none or the empty string is given. *)
Definition stored_ref (given stored : option string) : Prop :=
  match given with
  | None | Some "" => stored = None
  | Some x => stored = Some x
  end.

(** The value stored for an optional free text: the given text without its
    surrounding white space, or NULL when none or a blank one is given. *)
Definition stored_text (given stored : option text) : Prop :=
  match given with
  | None => stored = None
  | Some d =>
      (whitespace_only d = true /\ stored = None)
      \/ (exists t, trimmed_of d t /\ stored = Some t)
  end.

(** The value stored for the amount: the given one, or 0 when none is
    given. *)
Definition stored_amount (given : option Q) (stored : Q) : Prop :=
  match given with
  | None => stored = 0%Q
  | Some a => stored = a
  end.

(** No deal of the table has the identifier [key]. *)
Definition absent (key : string) (db : list deal) : Prop :=
  forall r, In r db -> id r <> key.

(** The identifiers of a table, in table order. *)
Definition ids (db : list deal) : list string := map id db.

(** The condition GET /deals puts on a deal. *)
Definition selected (toLowerCase LOWER : text -> text) (query : Query.t)
    (r : deal) : bool :=
  forallb (fun c => c r) (where_clauses toLowerCase LOWER query).

(** The deals of a table that do not have the id [key]. *)
Definition others (key : string) (db : list deal) : list deal :=
  filter (fun r => negb (String.eqb (id r) key)) db.

(** The primary keys of the three joined tables are unique. *)
Definition unique_keys (dir : directory) : Prop :=
  NoDup (map Contact.id (contacts dir))
  /\ NoDup (map Company.id (companies dir))
  /\ NoDup (map User.id (users dir)).

(** A stored text is trimmed and not empty. *)
Definition tidy (s : text) : Prop := s <> [] /\ Js.trim s = s.

(** A text that does not start with white space. *)
Definition no_leading_space (s : text) : Prop :=
  match s with
  | [] => True
  | c :: _ => Js.is_space c = false
  end.

(** The sum of an integer column. *)
Definition sum_Z (l : list Z) : Z := fold_right Z.add 0 l.

(** A directory with two contacts, a company and a user. *)
Definition example_directory : directory :=
  {| contacts :=
       [Contact.mk "c1" (Some "Ada") (Some "Lovelace") (Some "ada@example.org");
        Contact.mk "c2" (Some "Alan") None None];
     companies := [Company.mk "k1" (Some "Acme")];
     users := [User.mk "u1" (Some "Grace") (Some "Hopper")] |}.

(** The joined columns of a view come from the row [o] of a joined table
    whose key is [col], or are all NULL when the table has no such row. *)
Definition joined_row {B : Type} (key : B -> string) (table : list B)
    (col : option string) (o : option B) : Prop :=
  match o with
  | Some b => In b table /\ col = Some (key b)
  | None => forall b, In b table -> col <> Some (key b)
  end.

(** A deal linked to the first contact of the example directory and assigned
    to a user the directory does not hold. *)
Definition linked_db : list deal :=
  snd (post_deals example_probability "d7" 7
         (Body.mk (Some (text_of_string "Omega")) None None None
            (Some "c1") None (Some "u9") None)
         example_db).

(** The example table after the deal d2 was moved to gagne. *)
Definition closed_db : list deal :=
  snd (patch_deal_status example_probability 9 "d2" (Some "gagne") example_db).



(** A search text typed between a no-break space and a space. *)
Definition example_search : text := 160%N :: text_of_string "alp ".

(** * Properties *)

(** ** The handlers on small inputs *)

Example trim_title :
  Js.trim (text_of_string "  Big deal  ") = text_of_string "Big deal".
Proof. reflexivity. Qed.

Example trim_blank : Js.trim (text_of_string "   ") = [].
Proof. reflexivity. Qed.

(** A no-break space, an ideographic space and a byte order mark are
    trimmed like a space. *)
Example trim_unicode_spaces :
  Js.trim ([160; 12288] ++ text_of_string "Alp" ++ [65279; 8233])%N%list
  = text_of_string "Alp".
Proof. reflexivity. Qed.

Example create_empty_title :
  post_deals example_probability "d9" 9 (example_body "" None None) example_db
  = (ValidationError, example_db).
Proof. reflexivity. Qed.

Example create_blank_title :
  post_deals example_probability "d9" 9 (example_body "  " None None) example_db
  = (ValidationError, example_db).
Proof. reflexivity. Qed.

(** A title made of a no-break space only is blank. *)
Example create_nbsp_title :
  post_deals example_probability "d9" 9
    (Body.mk (Some [160%N]) None None None None None None None) example_db
  = (ValidationError, example_db).
Proof. reflexivity. Qed.

Example create_unknown_status :
  post_deals example_probability "d9" 9
    (example_body "Delta" (Some "won") None) example_db
  = (InvalidStatus, example_db).
Proof. reflexivity. Qed.

Example delete_absent :
  delete_deal "zz" example_db = (NotFound, example_db).
Proof. reflexivity. Qed.

Example like_wildcards :
  Sql.LIKE (text_of_string "gamma 100%") (text_of_string "%a_1%") = true
  /\ Sql.LIKE (text_of_string "gamma 100%") (text_of_string "%\%") = true
  /\ Sql.LIKE (text_of_string "beta") (text_of_string "%\%") = false
  /\ Sql.LIKE (text_of_string "beta") (text_of_string "b_t") = false.
Proof. repeat split. Qed.

(** The underscore stands for one character, whatever its code point. *)
Example like_one_character :
  Sql.LIKE [233%N] (text_of_string "_") = true
  /\ Sql.LIKE [233%N] (text_of_string "__") = false.
Proof. split; reflexivity. Qed.

(** The scenario of the specification: a deal of 1000 at probability 50
    weighs 500 in the pipeline; once moved to gagne it counts as won, is no
    longer active and carries a closing time. *)
Example pipeline_scenario :
  let db1 :=
    snd (post_deals example_probability "d1" 1
           (example_body "Alpha" (Some "proposition") (Some 1000%Q)) []) in
  let db2 :=
    snd (patch_deal_status example_probability 2 "d1" (Some "gagne") db1) in
  (weighted_value (summary_query db1) == 500)%Q
  /\ active_deals (summary_query db1) = 1
  /\ (won_value (summary_query db2) == 1000)%Q
  /\ active_deals (summary_query db2) = 0
  /\ map closed_at db2 = [Some 2].
Proof. repeat split. Qed.

(** A status filter outside the enumeration is dropped from the query. *)
Lemma list_invalid_status_ignored :
  forall (toLowerCase LOWER : text -> text) dir s db,
    Js.includes ALLOWED_STATUSES (Some s) = false ->
    get_deals toLowerCase LOWER dir (Query.mk (Some s) None None) db
    = get_deals toLowerCase LOWER dir (Query.mk None None None) db.
Proof.
  intros toLowerCase LOWER dir s db H. unfold get_deals, where_clauses.
  cbn [Query.status Query.assigned_to Query.q].
  rewrite H, andb_false_r. reflexivity.
Qed.


(** ** Statuses and casts *)

Lemma cast_status_text : forall st, cast_deal_status (status_text st) = Some st.
Proof. intros []; reflexivity. Qed.

Lemma includes_allowed_text :
  forall s, Js.includes ALLOWED_STATUSES (Some s) = true ->
            exists st, s = status_text st.
Proof.
  intros s H. unfold Js.includes in H.
  apply existsb_exists in H. destruct H as [x [Hin Heq]].
  apply String.eqb_eq in Heq. subst x.
  unfold ALLOWED_STATUSES in Hin. simpl in Hin.
  destruct Hin as [H|[H|[H|[H|[H|[H|[]]]]]]]; subst s.
  - now exists prospect.
  - now exists qualification.
  - now exists proposition.
  - now exists negociation.
  - now exists gagne.
  - now exists perdu.
Qed.

Lemma includes_status_text :
  forall st, Js.includes ALLOWED_STATUSES (Some (status_text st)) = true.
Proof. intros []; reflexivity. Qed.

Lemma includes_allowed_In :
  forall s, Js.includes ALLOWED_STATUSES (Some s) = true <-> In s ALLOWED_STATUSES.
Proof.
  intros s. unfold Js.includes. rewrite existsb_exists. split.
  - intros [x [Hin Heq]]. apply String.eqb_eq in Heq. now subst.
  - intros Hin. exists s. split; [assumption | apply String.eqb_refl].
Qed.

Lemma status_text_inj : forall a b, status_text a = status_text b -> a = b.
Proof. intros [] []; simpl; intros H; try reflexivity; discriminate H. Qed.

Lemma is_closed_text :
  forall st, is_closed st = true <->
             (status_text st = "gagne" \/ status_text st = "perdu").
Proof.
  intros []; simpl; split; intros H; try discriminate H; auto;
    destruct H as [H|H]; discriminate H.
Qed.

Lemma deal_status_eqb_eq : forall a b, deal_status_eqb a b = true <-> a = b.
Proof. intros [] []; simpl; split; intros H; try reflexivity; discriminate H. Qed.

Lemma deal_status_eqb_refl : forall a, deal_status_eqb a a = true.
Proof. intros []; reflexivity. Qed.

(** ** The UPDATE statement *)

Section WriteFacts.

Variable probability_of : deal_status -> Q.

Lemma update_rows_nil :
  forall now set key db,
    (forall r, In r db -> id r <> key) ->
    UPDATE_where_id probability_of now set key db = ([], db).
Proof.
  intros now set key db H. unfold UPDATE_where_id. f_equal.
  - induction db as [|r db IH]; simpl; [reflexivity|].
    destruct (String.eqb (id r) key) eqn:E.
    + apply String.eqb_eq in E. exfalso. apply (H r); [now left | assumption].
    + apply IH. intros r' Hr'. apply H. now right.
  - induction db as [|r db IH]; simpl; [reflexivity|].
    destruct (String.eqb (id r) key) eqn:E.
    + apply String.eqb_eq in E. exfalso. apply (H r); [now left | assumption].
    + f_equal. apply IH. intros r' Hr'. apply H. now right.
Qed.

Lemma update_rows_cons :
  forall now set key db,
    (exists r, In r db /\ id r = key) ->
    exists r rows,
      In r db /\ id r = key /\
      fst (UPDATE_where_id probability_of now set key db)
      = maintained probability_of now (set r) :: rows.
Proof.
  intros now set key db [r [Hin Hid]]. unfold UPDATE_where_id. simpl.
  induction db as [|x db IH]; [destruct Hin|].
  simpl. destruct (String.eqb (id x) key) eqn:E.
  - apply String.eqb_eq in E. exists x. eexists. simpl. split; [now left|].
    split; [assumption | reflexivity].
  - destruct Hin as [Hx | Hin].
    + subst x. rewrite Hid, String.eqb_refl in E. discriminate E.
    + destruct (IH Hin) as [r0 [rows [H1 [H2 H3]]]].
      exists r0, rows. split; [now right|]. split; assumption.
Qed.

(** Every row of the table after the UPDATE is either an untouched row with
    another id or the image of a row with the given id. *)
Lemma update_table_In :
  forall now set key db r',
    In r' (snd (UPDATE_where_id probability_of now set key db)) <->
    (In r' db /\ id r' <> key) \/
    (exists r, In r db /\ id r = key /\ r' = maintained probability_of now (set r)).
Proof.
  intros now set key db r'. unfold UPDATE_where_id. simpl.
  rewrite in_map_iff. split.
  - intros [r [Heq Hin]]. destruct (String.eqb (id r) key) eqn:E.
    + right. exists r. apply String.eqb_eq in E. now repeat split.
    + left. subst r'. split; [assumption|]. now apply String.eqb_neq.
  - intros [[Hin Hne] | [r [Hin [Hid Heq]]]].
    + exists r'. apply String.eqb_neq in Hne. rewrite Hne. now split.
    + exists r. rewrite Hid, String.eqb_refl. now split.
Qed.

Lemma update_returning_In :
  forall now set key db r',
    In r' (fst (UPDATE_where_id probability_of now set key db)) ->
    In r' (snd (UPDATE_where_id probability_of now set key db)).
Proof.
  intros now set key db r'. unfold UPDATE_where_id. simpl.
  rewrite !in_map_iff. intros [r [Heq Hin]].
  apply filter_In in Hin. destruct Hin as [Hin E].
  exists r. rewrite E. now split.
Qed.

End WriteFacts.

(** ** Trimming *)

(** The characters [trim] removes are the white-space characters of the
    specification. *)
Lemma is_space_blank : forall c, Js.is_space c = blank_char c.
Proof.
  intros c. apply eq_true_iff_eq. unfold Js.is_space, blank_char.
  rewrite existsb_exists.
  rewrite !orb_true_iff, !andb_true_iff, !N.leb_le, !N.eqb_eq.
  split.
  - intros [x [Hin Hx]]. apply N.eqb_eq in Hx. subst x.
    unfold Js.WHITE_SPACE, Js.LINE_TERMINATOR in Hin. simpl in Hin. lia.
  - intros H. exists c. split; [|apply N.eqb_refl].
    unfold Js.WHITE_SPACE, Js.LINE_TERMINATOR. simpl. lia.
Qed.

Lemma trimEnd_empty_iff :
  forall s, Js.trimEnd s = [] <-> whitespace_only s = true.
Proof.
  induction s as [|c s IH]; simpl.
  - split; reflexivity.
  - rewrite <- is_space_blank. destruct (Js.trimEnd s) as [|c' r] eqn:E.
    + destruct (Js.is_space c); simpl.
      * split; intros _; [now apply IH | reflexivity].
      * split; intros H; discriminate H.
    + split; intros H; [discriminate H|].
      apply andb_true_iff in H. destruct H as [_ H].
      apply IH in H. discriminate H.
Qed.

Lemma trimStart_blank_iff :
  forall s, whitespace_only (Js.trimStart s) = whitespace_only s.
Proof.
  induction s as [|c s IH]; simpl; [reflexivity|].
  rewrite <- is_space_blank. destruct (Js.is_space c) eqn:E; simpl.
  - exact IH.
  - now rewrite <- is_space_blank, E.
Qed.

(** The code's test [!title.trim()] is the specification's "empty or
    whitespace-only". *)
Lemma trim_empty_iff :
  forall s, Js.trim s = [] <-> whitespace_only s = true.
Proof.
  intros s. unfold Js.trim. rewrite trimEnd_empty_iff.
  now rewrite trimStart_blank_iff.
Qed.

(** *** Trimming, as the specification words it *)

Lemma whitespace_only_app :
  forall a b,
    whitespace_only (a ++ b)%list = whitespace_only a && whitespace_only b.
Proof.
  induction a as [|c a IH]; intros b; simpl; [reflexivity|].
  now rewrite IH, andb_assoc.
Qed.

Lemma trimStart_blank_prefix :
  forall a x, whitespace_only a = true -> Js.trimStart (a ++ x)%list = Js.trimStart x.
Proof.
  induction a as [|c a IH]; intros x H; simpl in *; [reflexivity|].
  apply andb_true_iff in H. destruct H as [Hc Ha].
  rewrite is_space_blank, Hc. now apply IH.
Qed.

Lemma trimEnd_blank_suffix :
  forall x b, whitespace_only b = true -> Js.trimEnd (x ++ b)%list = Js.trimEnd x.
Proof.
  induction x as [|c x IH]; intros b H; simpl.
  - now apply trimEnd_empty_iff.
  - now rewrite IH.
Qed.

Lemma trimEnd_clean_end :
  forall t, t <> [] -> blank_char (last t 0%N) = false -> Js.trimEnd t = t.
Proof.
  induction t as [|c t IH]; intros Hne Hlast; [now elim Hne|].
  destruct t as [|c' t'].
  - simpl in *. now rewrite is_space_blank, Hlast.
  - change (Js.trimEnd (c :: c' :: t'))
      with (match Js.trimEnd (c' :: t') with
            | [] => if Js.is_space c then [] else [c]
            | r0 :: r => c :: r0 :: r
            end).
    rewrite IH; [reflexivity | discriminate | exact Hlast].
Qed.

(** A trimmed text in the sense of the specification is what [trim]
    computes. *)
Lemma trimmed_of_trim :
  forall raw t, trimmed_of raw t -> Js.trim raw = t /\ whitespace_only raw = false.
Proof.
  intros raw t [a [b [-> [Ha [Hb [Hne [Hhd Hlast]]]]]]]. split.
  - unfold Js.trim. rewrite trimStart_blank_prefix by exact Ha.
    destruct t as [|c t]; [now elim Hne|].
    simpl hd in Hhd. cbn [app Js.trimStart]. rewrite is_space_blank, Hhd.
    change (c :: (t ++ b)%list) with ((c :: t) ++ b)%list.
    rewrite trimEnd_blank_suffix by exact Hb.
    apply trimEnd_clean_end; [discriminate | exact Hlast].
  - rewrite !whitespace_only_app, Ha, Hb.
    destruct t as [|c t]; [now elim Hne|].
    simpl in *. now rewrite Hhd.
Qed.

Lemma trimStart_split :
  forall s,
    exists a,
      s = (a ++ Js.trimStart s)%list /\ whitespace_only a = true.
Proof.
  induction s as [|c s [a [Hs Ha]]]; simpl.
  - now exists [].
  - destruct (Js.is_space c) eqn:E.
    + exists (c :: a). simpl. rewrite <- is_space_blank, E, Ha.
      split; [now rewrite <- Hs | reflexivity].
    + now exists [].
Qed.

Lemma trimEnd_split :
  forall s,
    exists b,
      s = (Js.trimEnd s ++ b)%list
      /\ whitespace_only b = true
      /\ (Js.trimEnd s <> [] -> blank_char (last (Js.trimEnd s) 0%N) = false)
      /\ hd 0%N (Js.trimEnd s) = (match Js.trimEnd s with [] => 0%N | _ => hd 0%N s end).
Proof.
  induction s as [|c s [b [Hs [Hb [Hlast Hhd]]]]].
  - exists []. simpl. split; [reflexivity|]. split; [reflexivity|].
    split; [intros H; now elim H | reflexivity].
  - simpl. destruct (Js.trimEnd s) as [|c' r] eqn:E.
    + destruct (Js.is_space c) eqn:Ec.
      * exists (c :: b). simpl in Hs |- *. rewrite <- is_space_blank, Ec, Hb.
        split; [now rewrite <- Hs|]. split; [reflexivity|].
        split; [intros H; now elim H | reflexivity].
      * exists b. simpl in Hs |- *. split; [now rewrite <- Hs|].
        split; [exact Hb|]. split; [|reflexivity].
        intros _. now rewrite <- is_space_blank.
    + exists b. split; [simpl; f_equal; exact Hs|]. split; [exact Hb|].
      split; [|reflexivity].
      intros _. cbn [last]. apply Hlast. discriminate.
Qed.

(** What [trim] computes on a text that is not blank is a trimmed text in
    the sense of the specification. *)
Lemma trim_trimmed_of :
  forall raw, whitespace_only raw = false -> trimmed_of raw (Js.trim raw).
Proof.
  intros raw Hraw. unfold Js.trim.
  destruct (trimStart_split raw) as [a [Hs Ha]].
  destruct (trimEnd_split (Js.trimStart raw)) as [b [He [Hb [Hlast Hhd]]]].
  assert (Hne : Js.trimEnd (Js.trimStart raw) <> []).
  { intros E. apply trimEnd_empty_iff in E. rewrite trimStart_blank_iff in E.
    congruence. }
  exists a, b. split; [now rewrite <- He|]. split; [exact Ha|]. split; [exact Hb|].
  split; [exact Hne|]. split; [|now apply Hlast].
  rewrite Hhd. destruct (Js.trimEnd (Js.trimStart raw)); [now elim Hne|].
  clear - raw. induction raw as [|c raw IH]; simpl.
  - reflexivity.
  - destruct (Js.is_space c) eqn:E; [exact IH|]. simpl.
    now rewrite <- is_space_blank.
Qed.

Lemma title_blank_match :
  forall body,
    title_blank body <->
    (option_map Js.trim (Body.title body) = None
     \/ option_map Js.trim (Body.title body) = Some []).
Proof.
  intros body. unfold title_blank.
  destruct (Body.title body) as [raw|]; simpl.
  - rewrite <- trim_empty_iff. split.
    + intros H. right. now rewrite H.
    + intros [H|H]; [discriminate H | now injection H].
  - split; auto.
Qed.

Lemma title_of_match :
  forall body t, title_of body t ->
    exists c s, t = c :: s
                /\ option_map Js.trim (Body.title body) = Some (c :: s).
Proof.
  intros body t [raw [H1 H2]]. rewrite H1. simpl.
  pose proof (trimmed_of_trim raw t H2) as [Ht _]. rewrite Ht.
  destruct H2 as [_ [_ [_ [_ [_ [Hne _]]]]]].
  destruct t as [|c s]; [now elim Hne | now exists c, s].
Qed.

Lemma title_blank_or_of :
  forall body, title_blank body \/ exists t, title_of body t.
Proof.
  intros body. unfold title_blank, title_of.
  destruct (Body.title body) as [raw|]; [|now left].
  destruct (whitespace_only raw) eqn:E; [now left|].
  right. exists (Js.trim raw), raw. split; [reflexivity|].
  now apply trim_trimmed_of.
Qed.

Lemma title_of_not_blank :
  forall body t, title_of body t -> ~ title_blank body.
Proof.
  intros body t [raw [H1 H2]] Hb. unfold title_blank in Hb. rewrite H1 in Hb.
  apply trimmed_of_trim in H2. destruct H2 as [_ H2]. congruence.
Qed.

Lemma status_of_default :
  forall body st, status_of body st ->
    Js.or_default (Body.status body) "prospect" = status_text st.
Proof.
  intros body st. unfold status_of, Js.or_default.
  destruct (Body.status body) as [[|c s]|]; intros H;
    [subst; reflexivity | exact H | subst; reflexivity].
Qed.

Lemma status_rejected_or_of :
  forall body, status_rejected body \/ exists st, status_of body st.
Proof.
  intros body. unfold status_rejected, status_of.
  destruct (Body.status body) as [[|c s]|].
  - right. now exists prospect.
  - destruct (Js.includes ALLOWED_STATUSES (Some (String c s))) eqn:E.
    + right. apply includes_allowed_text in E. destruct E as [st E]. now exists st.
    + left. exists (String c s). split; [reflexivity|]. split; [discriminate|].
      intros Hin. apply includes_allowed_In in Hin. rewrite Hin in E. discriminate E.
  - right. now exists prospect.
Qed.

Lemma status_rejected_not_of :
  forall body st, status_rejected body -> status_of body st -> False.
Proof.
  intros body st [s [H1 [H2 H3]]] H. unfold status_of in H. rewrite H1 in H.
  destruct s as [|c s]; [now apply H2|].
  apply H3. rewrite H. apply includes_allowed_In. apply includes_status_text.
Qed.

Section HandlerFacts.

Variable probability_of : deal_status -> Q.

Lemma update_Forall2 :
  forall (R : deal -> deal -> Prop) now set key db,
    (forall r, id r = key -> R r (maintained probability_of now (set r))) ->
    (forall r, id r <> key -> R r r) ->
    Forall2 R db (snd (UPDATE_where_id probability_of now set key db)).
Proof.
  intros R now set key db Hk Hn. unfold UPDATE_where_id. simpl.
  induction db as [|r db IH]; simpl; constructor; [|exact IH].
  destruct (String.eqb (id r) key) eqn:E.
  - apply Hk. now apply String.eqb_eq.
  - apply Hn. now apply String.eqb_neq.
Qed.

(** The status transition with a status of the enumeration is the UPDATE. *)
Lemma patch_valid :
  forall now key st db,
    patch_deal_status probability_of now key (Some (status_text st)) db =
    (match fst (UPDATE_where_id probability_of now (set_status now st) key db) with
     | [] => NotFound
     | row :: _ => Reply 200 row
     end,
     snd (UPDATE_where_id probability_of now (set_status now st) key db)).
Proof.
  intros now key st db. unfold patch_deal_status.
  rewrite includes_status_text. simpl negb. cbv iota.
  unfold Js.nullish. rewrite cast_status_text.
  destruct (UPDATE_where_id probability_of now (set_status now st) key db)
    as [rows db'] eqn:E.
  simpl. now destruct rows.
Qed.

Lemma or_default_prospect :
  forall (x : option string),
    x = None \/ x = Some "" -> Js.or_default x "prospect" = "prospect".
Proof. intros x [H|H]; subst; reflexivity. Qed.

Lemma or_default_given :
  forall s d, s <> "" -> Js.or_default (Some s) d = s.
Proof. intros [|c s] d H; [contradiction|reflexivity]. Qed.

Lemma put_valid :
  forall now key body db t st,
    title_of body t ->
    status_of body st ->
    let set :=
      set_all now t
        (Js.or_null (option_map Js.trim (Body.description body)))
        st
        (Js.nullish (Body.amount body) 0%Q)
        (Js.or_else (Body.contact_id body) None)
        (Js.or_else (Body.company_id body) None)
        (Js.or_else (Body.assigned_to body) None)
        (Js.or_else (Body.expected_close_date body) None) in
    put_deal probability_of now key body db =
    (match fst (UPDATE_where_id probability_of now set key db) with
     | [] => NotFound
     | row :: _ => Reply 200 row
     end,
     snd (UPDATE_where_id probability_of now set key db)).
Proof.
  intros now key body db t st Ht Hst set.
  apply status_of_default in Hst.
  destruct (title_of_match body t Ht) as [c [s [-> Hm]]].
  unfold put_deal. rewrite Hm.
  assert (Hinc : Js.truthy (Body.status body)
                 && negb (Js.includes ALLOWED_STATUSES (Body.status body)) = false).
  { destruct (Body.status body) as [[|c' s']|]; try reflexivity.
    unfold Js.or_default in Hst. rewrite Hst, includes_status_text.
    apply andb_false_r. }
  rewrite Hinc. rewrite Hst, cast_status_text.
  fold set.
  destruct (UPDATE_where_id probability_of now set key db) as [rows db'] eqn:E.
  simpl. now destruct rows.
Qed.

End HandlerFacts.

(** ** Status-affecting writes *)

Section WriteClaims.

Variable probability_of : deal_status -> Q.

Lemma closed_at_for_iff :
  forall now st,
    closed_at_for now st <> None <-> (st = gagne \/ st = perdu).
Proof.
  intros now st. unfold closed_at_for.
  destruct st; simpl; split; intros H;
    try discriminate; try (now auto); try (now exfalso; apply H);
    destruct H as [H|H]; discriminate H.
Qed.

Lemma closed_at_for_open :
  forall now st, st <> gagne -> st <> perdu -> closed_at_for now st = None.
Proof.
  intros now st H1 H2. destruct st; try reflexivity; [now elim H1 | now elim H2].
Qed.

(** C2: for an existing deal id and a status of the enumeration, the status
    transition answers with the updated row, and every stored row with that
    id carries the new status with [closed_at] non-null exactly when the
    status is gagne or perdu, and null for the four other statuses. *)
Theorem transition_sets_closed_at :
  forall now key s db,
    In s ALLOWED_STATUSES ->
    (exists r, In r db /\ id r = key) ->
    exists row,
      fst (patch_deal_status probability_of now key (Some s) db) = Reply 200 row
      /\ id row = key
      /\ In row (snd (patch_deal_status probability_of now key (Some s) db))
      /\ forall r',
           In r' (snd (patch_deal_status probability_of now key (Some s) db)) ->
           id r' = key ->
           status_text (status r') = s
           /\ (closed_at r' <> None <-> (s = "gagne" \/ s = "perdu"))
           /\ (s <> "gagne" -> s <> "perdu" -> closed_at r' = None).
Proof.
  intros now key s db Hs Hex.
  apply includes_allowed_In, includes_allowed_text in Hs. destruct Hs as [st ->].
  rewrite patch_valid. cbn [fst snd].
  destruct (update_rows_cons probability_of now (set_status now st) key db Hex)
    as [r0 [rows [Hin0 [Hid0 Hrows]]]].
  exists (maintained probability_of now (set_status now st r0)).
  rewrite Hrows. split; [reflexivity|]. split; [exact Hid0|]. split.
  - apply update_returning_In. rewrite Hrows. now left.
  - intros r' Hin' Hid'. apply update_table_In in Hin'.
    destruct Hin' as [[_ Hne] | [r [Hin [Hid ->]]]]; [contradiction|].
    simpl. split; [reflexivity|]. split.
    + rewrite closed_at_for_iff. split.
      * intros [->| ->]; auto.
      * intros [H|H]; [left|right]; now apply status_text_inj.
    + intros H1 H2. apply closed_at_for_open; intros ->; [now apply H1 | now apply H2].
Qed.

(** C7: a status outside the enumeration (or a missing one) fails with
    InvalidStatus and leaves the table as it was; a status of the
    enumeration with an absent id fails with NotFound; otherwise every row
    keeps its id, title, description, amount, contact, company, assignee,
    expected close date and creation time, and rows with another id are
    unchanged altogether. *)
Theorem transition_frame :
  forall now key status db,
    ((forall s, status = Some s -> ~ In s ALLOWED_STATUSES) ->
       patch_deal_status probability_of now key status db = (InvalidStatus, db))
    /\
    (forall s, status = Some s -> In s ALLOWED_STATUSES ->
       ((forall r, In r db -> id r <> key) ->
          patch_deal_status probability_of now key status db = (NotFound, db))
       /\
       ((exists r, In r db /\ id r = key) ->
          exists row,
            fst (patch_deal_status probability_of now key status db) = Reply 200 row)
       /\
       Forall2 (fun r r' => same_but_status r r' /\ (id r <> key -> r' = r))
         db (snd (patch_deal_status probability_of now key status db))).
Proof.
  intros now key status db. split.
  - intros Hout. unfold patch_deal_status.
    destruct (Js.includes ALLOWED_STATUSES status) eqn:E; [|reflexivity].
    destruct status as [s|]; [|discriminate E].
    apply includes_allowed_In in E. now elim (Hout s eq_refl).
  - intros s -> Hs.
    apply includes_allowed_In, includes_allowed_text in Hs. destruct Hs as [st ->].
    rewrite patch_valid. cbn [fst snd]. split; [|split].
    + intros Habs. now rewrite update_rows_nil.
    + intros Hex.
      destruct (update_rows_cons probability_of now (set_status now st) key db Hex)
        as [r0 [rows [_ [_ Hrows]]]].
      rewrite Hrows. eexists. reflexivity.
    + apply update_Forall2.
      * intros r Hid. split; [|intros Hne; contradiction].
        unfold same_but_status. simpl. now repeat split.
      * intros r Hne. split; [|reflexivity].
        unfold same_but_status. now repeat split.
Qed.

(** C10: an update whose body omits the status, or passes the empty string
    for it, stores status prospect and a null [closed_at] on the deal with
    the given id, whatever its previous status was. *)
Theorem update_without_status_resets :
  forall now key body db t,
    title_of body t ->
    (Body.status body = None \/ Body.status body = Some "") ->
    (exists r, In r db /\ id r = key) ->
    exists row,
      fst (put_deal probability_of now key body db) = Reply 200 row
      /\ id row = key
      /\ In row (snd (put_deal probability_of now key body db))
      /\ forall r',
           In r' (snd (put_deal probability_of now key body db)) ->
           id r' = key ->
           status r' = prospect /\ closed_at r' = None.
Proof.
  intros now key body db t Ht Hst Hex.
  assert (Hof : status_of body prospect).
  { unfold status_of. destruct Hst as [-> | ->]; reflexivity. }
  rewrite (put_valid probability_of now key body db t prospect Ht Hof).
  cbn [fst snd].
  match goal with
  | |- context [UPDATE_where_id _ _ ?f _ _] => set (upd := f)
  end.
  destruct (update_rows_cons probability_of now upd key db Hex)
    as [r0 [rows [Hin0 [Hid0 Hrows]]]].
  exists (maintained probability_of now (upd r0)).
  rewrite Hrows. split; [reflexivity|]. split; [exact Hid0|]. split.
  - apply update_returning_In. rewrite Hrows. now left.
  - intros r' Hin' Hid'. apply update_table_In in Hin'.
    destruct Hin' as [[_ Hne] | [r [Hin [Hid ->]]]]; [contradiction|].
    split; reflexivity.
Qed.

Lemma or_else_stored :
  forall given, stored_ref given (Js.or_else given None).
Proof. intros [[|c s]|]; reflexivity. Qed.

Lemma or_null_stored :
  forall given, stored_text given (Js.or_null (option_map Js.trim given)).
Proof.
  intros [d|]; simpl; [|reflexivity].
  destruct (whitespace_only d) eqn:E.
  - left. split; [reflexivity|]. apply trim_empty_iff in E. now rewrite E.
  - right. exists (Js.trim d). split; [now apply trim_trimmed_of|].
    destruct (Js.trim d) eqn:T; [|reflexivity].
    apply trim_empty_iff in T. congruence.
Qed.

Lemma nullish_stored :
  forall given, stored_amount given (Js.nullish given 0%Q).
Proof. intros [a|]; reflexivity. Qed.

(** C6: update replaces the whole record.  For a valid input, an absent id
    fails with NotFound and leaves the table; an existing id answers with
    the updated row; and in the new table every row with that id has the
    new trimmed title and the new status, [closed_at] set to the time of
    the update when the new status is gagne or perdu and null otherwise,
    and in every optional field the value the body supplies, or the null
    or default value (null, prospect, 0) when the body does not supply it,
    whatever the row held before; rows with another id are unchanged. *)
Theorem update_full_replace :
  forall now key body db t st,
    title_of body t ->
    status_of body st ->
    ((forall r, In r db -> id r <> key) ->
       put_deal probability_of now key body db = (NotFound, db))
    /\
    ((exists r, In r db /\ id r = key) ->
       exists row,
         fst (put_deal probability_of now key body db) = Reply 200 row
         /\ id row = key
         /\ In row (snd (put_deal probability_of now key body db)))
    /\
    Forall2
      (fun r r' =>
         id r' = id r
         /\ (id r <> key -> r' = r)
         /\ (id r = key ->
               title r' = t
               /\ status r' = st
               /\ (st = gagne \/ st = perdu -> closed_at r' = Some now)
               /\ (st <> gagne -> st <> perdu -> closed_at r' = None)
               /\ (Body.description body = None -> description r' = None)
               /\ (Body.status body = None -> status r' = prospect)
               /\ (Body.amount body = None -> amount r' = 0%Q)
               /\ (Body.contact_id body = None -> contact_id r' = None)
               /\ (Body.company_id body = None -> company_id r' = None)
               /\ (Body.assigned_to body = None -> assigned_to r' = None)
               /\ (Body.expected_close_date body = None ->
                     expected_close_date r' = None)
               /\ stored_text (Body.description body) (description r')
               /\ stored_amount (Body.amount body) (amount r')
               /\ stored_ref (Body.contact_id body) (contact_id r')
               /\ stored_ref (Body.company_id body) (company_id r')
               /\ stored_ref (Body.assigned_to body) (assigned_to r')
               /\ stored_ref (Body.expected_close_date body)
                    (expected_close_date r')))
      db (snd (put_deal probability_of now key body db)).
Proof.
  intros now key body db t st Ht Hst.
  rewrite (put_valid probability_of now key body db t st Ht Hst).
  cbn [fst snd].
  match goal with
  | |- context [UPDATE_where_id _ _ ?f _ _] => set (upd := f)
  end.
  split; [|split].
  - intros Habs. now rewrite update_rows_nil.
  - intros Hex.
    destruct (update_rows_cons probability_of now upd key db Hex)
      as [r0 [rows [Hin0 [Hid0 Hrows]]]].
    exists (maintained probability_of now (upd r0)).
    rewrite Hrows. split; [reflexivity|]. split; [exact Hid0|].
    apply update_returning_In. rewrite Hrows. now left.
  - apply update_Forall2.
    + intros r Hid. split; [reflexivity|]. split; [intros Hne; contradiction|].
      intros _. cbn [maintained upd set_all title status closed_at description
                       amount contact_id company_id assigned_to
                       expected_close_date].
      split; [reflexivity|]. split; [reflexivity|].
      split; [intros [-> | ->]; reflexivity|].
      split; [intros H1 H2; now apply closed_at_for_open|].
      split; [intros ->; reflexivity|].
      split.
      { intros Hnone. unfold status_of in Hst. rewrite Hnone in Hst. now subst st. }
      split; [intros ->; reflexivity|].
      split; [intros ->; reflexivity|].
      split; [intros ->; reflexivity|].
      split; [intros ->; reflexivity|].
      split; [intros ->; reflexivity|].
      split; [apply or_null_stored|].
      split; [apply nullish_stored|].
      repeat split; apply or_else_stored.
    + intros r Hne. split; [reflexivity|]. split; [reflexivity|].
      intros Hid. contradiction.
Qed.

End WriteClaims.

(** ** Creation *)

Section CreateClaims.

Variable probability_of : deal_status -> Q.

(** The row POST /deals inserts for a valid body. *)
Lemma post_valid :
  forall new_id now body db t st,
    title_of body t ->
    status_of body st ->
    post_deals probability_of new_id now body db =
    (Reply 201
       (fst (INSERT_deal probability_of new_id now t
               (Js.or_null (option_map Js.trim (Body.description body)))
               st
               (Js.nullish (Body.amount body) 0%Q)
               (Js.or_else (Body.contact_id body) None)
               (Js.or_else (Body.company_id body) None)
               (Js.or_else (Body.assigned_to body) None)
               (Js.or_else (Body.expected_close_date body) None) db)),
     snd (INSERT_deal probability_of new_id now t
            (Js.or_null (option_map Js.trim (Body.description body)))
            st
            (Js.nullish (Body.amount body) 0%Q)
            (Js.or_else (Body.contact_id body) None)
            (Js.or_else (Body.company_id body) None)
            (Js.or_else (Body.assigned_to body) None)
            (Js.or_else (Body.expected_close_date body) None) db)).
Proof.
  intros new_id now body db t st Ht Hst.
  destruct (title_of_match body t Ht) as [c [s [-> Hm]]].
  apply status_of_default in Hst.
  unfold post_deals. rewrite Hm, Hst, includes_status_text, cast_status_text.
  reflexivity.
Qed.

Lemma post_rejected :
  forall new_id now body db t,
    title_of body t ->
    status_rejected body ->
    post_deals probability_of new_id now body db = (InvalidStatus, db).
Proof.
  intros new_id now body db t Ht [s [Hs [Hne Hout]]].
  destruct (title_of_match body t Ht) as [c [s' [-> Hm]]].
  unfold post_deals. rewrite Hm, Hs, (or_default_given s "prospect" Hne).
  destruct (Js.includes ALLOWED_STATUSES (Some s)) eqn:E; [|reflexivity].
  apply includes_allowed_In in E. contradiction.
Qed.

Lemma post_blank :
  forall new_id now body db,
    title_blank body ->
    post_deals probability_of new_id now body db = (ValidationError, db).
Proof.
  intros new_id now body db Hb. apply title_blank_match in Hb.
  unfold post_deals. destruct Hb as [-> | ->]; reflexivity.
Qed.

(** C5: create fails with ValidationError exactly when the title is missing,
    empty or whitespace-only; with a usable title it fails with
    InvalidStatus when a status outside the enumeration is given; otherwise
    it appends one row to the table and returns it, with the new id, the
    trimmed title, the given status or prospect, the given amount or 0, a
    null [closed_at], and the other fields as given (a blank description
    and an empty reference stored as null).  The three cases cover every
    input. *)
Theorem create_outcomes :
  forall new_id now body db,
    (title_blank body
     \/ exists t, title_of body t
                  /\ (status_rejected body \/ exists st, status_of body st))
    /\ (fst (post_deals probability_of new_id now body db) = ValidationError
        <-> title_blank body)
    /\ (title_blank body ->
        snd (post_deals probability_of new_id now body db) = db)
    /\ (forall t, title_of body t ->
          (status_rejected body ->
             post_deals probability_of new_id now body db = (InvalidStatus, db))
          /\
          (forall st, status_of body st ->
             exists row,
               post_deals probability_of new_id now body db
               = (Reply 201 row, (db ++ [row])%list)
               /\ id row = new_id
               /\ title row = t
               /\ status row = st
               /\ (Body.status body = None -> status row = prospect)
               /\ (forall a, Body.amount body = Some a -> amount row = a)
               /\ (Body.amount body = None -> amount row = 0%Q)
               /\ closed_at row = None
               /\ stored_text (Body.description body) (description row)
               /\ stored_ref (Body.contact_id body) (contact_id row)
               /\ stored_ref (Body.company_id body) (company_id row)
               /\ stored_ref (Body.assigned_to body) (assigned_to row)
               /\ stored_ref (Body.expected_close_date body)
                    (expected_close_date row))).
Proof.
  intros new_id now body db. split; [|split; [|split]].
  - destruct (title_blank_or_of body) as [Hb | [t Ht]]; [now left|].
    right. exists t. split; [exact Ht|]. apply status_rejected_or_of.
  - split.
    + intros Hfail. destruct (title_blank_or_of body) as [Hb | [t Ht]]; [exact Hb|].
      destruct (status_rejected_or_of body) as [Hr | [st Hst]].
      * rewrite (post_rejected new_id now body db t Ht Hr) in Hfail.
        discriminate Hfail.
      * rewrite (post_valid new_id now body db t st Ht Hst) in Hfail.
        discriminate Hfail.
    + intros Hb. now rewrite post_blank.
  - intros Hb. now rewrite post_blank.
  - intros t Ht. split.
    + intros Hr. now apply (post_rejected new_id now body db t).
    + intros st Hst. rewrite (post_valid new_id now body db t st Ht Hst).
      eexists. split; [reflexivity|].
      cbn [INSERT_deal fst maintained id title status amount closed_at
             description contact_id company_id assigned_to expected_close_date].
      split; [reflexivity|]. split; [reflexivity|]. split; [reflexivity|].
      split.
      { intros Hnone. unfold status_of in Hst. now rewrite Hnone in Hst. }
      split; [intros a ->; reflexivity|].
      split; [intros ->; reflexivity|].
      split; [reflexivity|].
      split; [apply or_null_stored|].
      repeat split; apply or_else_stored.
Qed.

(** C1: at a deal created directly with status gagne the invariant fails.
    POST /deals stores the row with status gagne and a null [closed_at]: its
    INSERT names no [closed_at], where the two UPDATE statements compute it
    from the status. *)
Theorem create_closed_leaves_closed_at_null :
  exists row,
    post_deals probability_of "d1" 1
      (example_body "Alpha" (Some "gagne") (Some 300%Q)) []
    = (Reply 201 row, [row])
    /\ status row = gagne
    /\ closed_at row = None
    /\ ~ closed_at_consistent row.
Proof.
  eexists. split; [reflexivity|]. simpl. split; [reflexivity|].
  split; [reflexivity|].
  unfold closed_at_consistent. simpl. intros [_ H].
  apply H; [now left | reflexivity].
Qed.

End CreateClaims.

(** ** ORDER BY *)

Section OrderByFacts.

Context {A : Type} (key : A -> nat) (leb : A -> A -> bool).
Hypothesis leb_key : forall a b, leb a b = (key a <=? key b)%nat.

Lemma insert_sorted_perm :
  forall x l, Permutation (Sql.insert_sorted leb x l) (x :: l).
Proof.
  intros x l. induction l as [|y l IH]; simpl.
  - apply Permutation_refl.
  - destruct (leb x y).
    + apply Permutation_refl.
    + apply Permutation_trans with (y :: x :: l).
      * now apply perm_skip.
      * apply perm_swap.
Qed.

Lemma ORDER_BY_perm : forall l, Permutation (Sql.ORDER_BY leb l) l.
Proof.
  induction l as [|x l IH]; simpl.
  - apply perm_nil.
  - apply Permutation_trans with (x :: Sql.ORDER_BY leb l).
    + apply insert_sorted_perm.
    + now apply perm_skip.
Qed.

Lemma insert_sorted_sorted :
  forall x l,
    StronglySorted (fun a b => key a <= key b)%nat l ->
    StronglySorted (fun a b => key a <= key b)%nat (Sql.insert_sorted leb x l).
Proof.
  intros x l Hs. induction Hs as [|y l Hs IH Hy]; simpl.
  - constructor; constructor.
  - rewrite leb_key. destruct (key x <=? key y)%nat eqn:E.
    + apply Nat.leb_le in E. constructor.
      * now constructor.
      * constructor; [exact E|].
        eapply Forall_impl; [|exact Hy]. simpl. intros z Hz. lia.
    + apply Nat.leb_gt in E. constructor; [exact IH|].
      eapply Permutation_Forall.
      * apply Permutation_sym, insert_sorted_perm.
      * constructor; [lia | exact Hy].
Qed.

Lemma ORDER_BY_sorted :
  forall l, StronglySorted (fun a b => key a <= key b)%nat (Sql.ORDER_BY leb l).
Proof.
  induction l as [|x l IH]; simpl.
  - constructor.
  - now apply insert_sorted_sorted.
Qed.

(** A list without duplicates that is sorted on an injective key is
    strictly sorted. *)
Lemma sorted_nodup_strict :
  (forall a b, key a = key b -> a = b) ->
  forall l,
    StronglySorted (fun a b => key a <= key b)%nat l ->
    NoDup l ->
    StronglySorted (fun a b => key a < key b)%nat l.
Proof.
  intros Hinj l Hs. induction Hs as [|x l Hs IH Hx]; intros Hnd.
  - constructor.
  - inversion Hnd as [|? ? Hnotin Hnd']; subst. constructor; [now apply IH|].
    rewrite Forall_forall in Hx |- *. intros y Hy.
    specialize (Hx y Hy).
    destruct (Nat.eq_dec (key x) (key y)) as [E|E]; [|lia].
    apply Hinj in E. subst y. contradiction.
Qed.

Lemma strict_sorted_filter :
  forall (f : A -> bool) l,
    StronglySorted (fun a b => key a < key b)%nat l ->
    StronglySorted (fun a b => key a < key b)%nat (filter f l).
Proof.
  intros f l Hs. induction Hs as [|x l Hs IH Hx]; simpl.
  - constructor.
  - destruct (f x); [|exact IH]. constructor; [exact IH|].
    rewrite Forall_forall in Hx |- *. intros y Hy.
    apply filter_In in Hy. now apply Hx.
Qed.

(** Two strictly sorted lists with the same elements are the same list. *)
Lemma strict_sorted_unique :
  forall l1 l2,
    StronglySorted (fun a b => key a < key b)%nat l1 ->
    StronglySorted (fun a b => key a < key b)%nat l2 ->
    (forall x, In x l1 <-> In x l2) ->
    l1 = l2.
Proof.
  intros l1 l2 H1. revert l2.
  induction H1 as [|a l1 H1 IH Ha]; intros l2 H2 Hsame.
  - destruct l2 as [|b l2]; [reflexivity|].
    exfalso. apply (proj2 (Hsame b)). now left.
  - destruct H2 as [|b l2 H2 Hb].
    + exfalso. apply (proj1 (Hsame a)). now left.
    + rewrite Forall_forall in Ha, Hb.
      assert (Hab : a = b).
      { destruct (proj1 (Hsame a) (or_introl eq_refl)) as [E|Hin]; [now symmetry|].
        destruct (proj2 (Hsame b) (or_introl eq_refl)) as [E|Hin']; [exact E|].
        specialize (Ha b Hin'). specialize (Hb a Hin). lia. }
      subst b. f_equal. apply IH; [exact H2|].
      intros x. split; intros Hx.
      * destruct (proj1 (Hsame x) (or_intror Hx)) as [E|Hin]; [|exact Hin].
        subst x. specialize (Ha a Hx). lia.
      * destruct (proj2 (Hsame x) (or_intror Hx)) as [E|Hin]; [|exact Hin].
        subst x. specialize (Hb a Hx). lia.
Qed.

End OrderByFacts.

Lemma ORDER_BY_map :
  forall {A B : Type} (f : A -> B) (leb : A -> A -> bool) (leb' : B -> B -> bool),
    (forall a b, leb a b = leb' (f a) (f b)) ->
    forall l, map f (Sql.ORDER_BY leb l) = Sql.ORDER_BY leb' (map f l).
Proof.
  intros A B f leb leb' H l. induction l as [|x l IH]; simpl; [reflexivity|].
  rewrite <- IH. generalize (Sql.ORDER_BY leb l). intros s.
  induction s as [|y s IHs]; simpl; [reflexivity|].
  rewrite <- H. destruct (leb x y); simpl; [reflexivity|]. now rewrite IHs.
Qed.

(** ** Pipeline statistics *)

Lemma SUM_fold :
  forall (xs : list (option Q)) (acc : option Q),
    (Sql.COALESCE
       (fold_left
          (fun acc x =>
             match x, acc with
             | None, _ => acc
             | Some v, None => Some v
             | Some v, Some a => Some (a + v)%Q
             end) xs acc) 0
     == Sql.COALESCE acc 0 + sum_Q (map (fun x => Sql.COALESCE x 0) xs))%Q.
Proof.
  induction xs as [|x xs IH]; intros acc; simpl.
  - ring.
  - rewrite IH. destruct x as [v|], acc as [a|]; simpl; ring.
Qed.

(** [COALESCE(SUM(e), 0)] is the sum of [e] with NULL read as 0. *)
Lemma COALESCE_SUM :
  forall xs,
    (Sql.COALESCE (Sql.SUM xs) 0 == sum_Q (map (fun x => Sql.COALESCE x 0) xs))%Q.
Proof.
  intros xs. unfold Sql.SUM. rewrite SUM_fold. simpl. ring.
Qed.

Lemma COALESCE_SUM_column :
  forall (f : deal -> Q) db,
    (Sql.COALESCE (Sql.SUM (map (fun r => Some (f r)) db)) 0 == sum_Q (map f db))%Q.
Proof.
  intros f db. rewrite COALESCE_SUM, map_map. simpl. reflexivity.
Qed.

Lemma COALESCE_SUM_case :
  forall (c : deal -> bool) (f : deal -> Q) db,
    (Sql.COALESCE (Sql.SUM (map (fun r => Sql.CASE_WHEN (c r) (f r)) db)) 0
     == sum_Q (map f (filter c db)))%Q.
Proof.
  intros c f db. rewrite COALESCE_SUM, map_map.
  induction db as [|r db IH]; simpl; [reflexivity|].
  destruct (c r); simpl; rewrite IH; ring.
Qed.

Lemma COUNT_case :
  forall (c : deal -> bool) db,
    Sql.COUNT (map (fun r => Sql.CASE_WHEN (c r) 1) db)
    = Z.of_nat (List.length (filter c db)).
Proof.
  intros c db. unfold Sql.COUNT. f_equal.
  induction db as [|r db IH]; simpl; [reflexivity|].
  destruct (c r); simpl; now rewrite IH.
Qed.

(** C4: the summary counts all deals, sums [amount] and [weighted_amount]
    over all deals, sums [amount] over the deals at gagne and counts the
    deals whose status is neither gagne nor perdu, that is the deals at
    prospect, qualification, proposition and negociation; on the empty
    table, and for [won_value] whenever no deal is at gagne, the sums are
    0. *)
Theorem stats_summary :
  forall db,
    exists s b,
      get_deals_stats db = Reply 200 (s, b)
      /\ total_deals s = Z.of_nat (List.length db)
      /\ (total_value s == sum_Q (map amount db))%Q
      /\ (weighted_value s == sum_Q (map weighted_amount db))%Q
      /\ (won_value s == sum_Q (map amount (at_stage gagne db)))%Q
      /\ active_deals s
         = Z.of_nat
             (List.length
                (filter
                   (fun r =>
                      match status r with
                      | gagne | perdu => false
                      | prospect | qualification | proposition | negociation => true
                      end) db))
      /\ active_deals s
         = Z.of_nat (List.length (at_stage prospect db))
           + Z.of_nat (List.length (at_stage qualification db))
           + Z.of_nat (List.length (at_stage proposition db))
           + Z.of_nat (List.length (at_stage negociation db))
      /\ (at_stage gagne db = [] -> (won_value s == 0)%Q)
      /\ (db = [] -> s = mkSummary 0 0%Q 0%Q 0%Q 0).
Proof.
  intros db. exists (summary_query db), (by_status_query db).
  split; [reflexivity|]. unfold summary_query. simpl.
  split; [reflexivity|].
  split; [apply COALESCE_SUM_column|].
  split; [apply COALESCE_SUM_column|].
  split; [apply COALESCE_SUM_case|].
  split.
  { rewrite COUNT_case. do 2 f_equal. apply filter_ext.
    intros r. now destruct (status r). }
  split.
  { rewrite COUNT_case. clear. unfold at_stage.
    induction db as [|r db IH]; [reflexivity|].
    cbn [filter]. destruct (status r);
      cbn [is_closed negb deal_status_eqb List.length] in *; lia. }
  split.
  - intros Hnone. rewrite COALESCE_SUM_case. unfold at_stage in Hnone.
    rewrite Hnone. reflexivity.
  - intros ->. reflexivity.
Qed.

Lemma funnel_position :
  forall s, Sql.ARRAY_POSITION FUNNEL (status_text s) = Some (rank s).
Proof. intros []; reflexivity. Qed.

Lemma funnel_leb_rank :
  forall a b, funnel_leb a b = (rank (stage a) <=? rank (stage b))%nat.
Proof.
  intros a b. unfold funnel_leb. now rewrite !funnel_position.
Qed.

Lemma rank_inj : forall a b, rank a = rank b -> a = b.
Proof. intros [] []; simpl; intros H; try reflexivity; discriminate H. Qed.

Lemma present_iff :
  forall db s, present db s = true <-> exists r, In r db /\ status r = s.
Proof.
  intros db s. unfold present. rewrite existsb_exists.
  split; intros [r [Hin H]]; exists r; (split; [exact Hin|]);
    now apply deal_status_eqb_eq.
Qed.

Lemma seen_iff :
  forall s seen,
    existsb (deal_status_eqb s) seen = true <-> In s seen.
Proof.
  intros s seen. rewrite existsb_exists. split.
  - intros [x [Hin H]]. apply deal_status_eqb_eq in H. now subst.
  - intros Hin. exists s. split; [exact Hin | apply deal_status_eqb_refl].
Qed.

(** The groups are the statuses present, each once. *)
Lemma group_keys_spec :
  forall db seen,
    NoDup (group_keys db seen)
    /\ forall s, In s (group_keys db seen) <->
                 (present db s = true /\ ~ In s seen).
Proof.
  induction db as [|r db IH]; intros seen; simpl.
  - split; [constructor|]. intros s. split; [intros [] | intros [H _]; discriminate H].
  - destruct (existsb (deal_status_eqb (status r)) seen) eqn:E.
    + apply seen_iff in E. destruct (IH seen) as [Hnd Hin]. split; [exact Hnd|].
      intros s. rewrite Hin. unfold present. simpl.
      split; intros [H1 H2]; (split; [|exact H2]).
      * rewrite H1. apply orb_true_r.
      * apply orb_true_iff in H1. destruct H1 as [H1|H1]; [|exact H1].
        apply deal_status_eqb_eq in H1. subst s. contradiction.
    + assert (Hnot : ~ In (status r) seen).
      { intros Hin. apply seen_iff in Hin. rewrite Hin in E. discriminate E. }
      destruct (IH (status r :: seen)) as [Hnd Hin]. split.
      * constructor; [|exact Hnd]. intros H. apply Hin in H.
        destruct H as [_ H]. apply H. now left.
      * intros s. simpl. rewrite Hin. unfold present. simpl. split.
        -- intros [H | [H1 H2]].
           ++ subst s. rewrite deal_status_eqb_refl. now split.
           ++ split; [rewrite H1; apply orb_true_r|].
              intros H. apply H2. now right.
        -- intros [H1 H2]. destruct (deal_status_eqb (status r) s) eqn:Es.
           ++ left. now apply deal_status_eqb_eq.
           ++ right. split; [exact H1|]. intros [H|H]; [|contradiction].
              subst s. rewrite deal_status_eqb_refl in Es. discriminate Es.
Qed.

Lemma funnel_strictly_sorted :
  StronglySorted (fun a b => rank a < rank b)%nat all_statuses.
Proof.
  unfold all_statuses. repeat constructor; simpl; lia.
Qed.

Lemma all_statuses_complete : forall s, In s all_statuses.
Proof. intros []; simpl; auto 10. Qed.

(** The stages of the breakdown are the canonical sequence restricted to the
    statuses present. *)
Lemma by_status_stages :
  forall db,
    map stage (by_status_query db) = filter (present db) all_statuses.
Proof.
  intros db. unfold by_status_query.
  rewrite (ORDER_BY_map stage funnel_leb (fun a b => (rank a <=? rank b)%nat)
             funnel_leb_rank).
  rewrite map_map. cbn [stage]. rewrite map_id.
  destruct (group_keys_spec db []) as [Hnd Hin].
  apply (strict_sorted_unique rank).
  - apply sorted_nodup_strict; [exact rank_inj | |].
    + now apply ORDER_BY_sorted.
    + eapply Permutation_NoDup; [|exact Hnd].
      apply Permutation_sym, ORDER_BY_perm.
  - apply strict_sorted_filter, funnel_strictly_sorted.
  - intros s. rewrite filter_In. split.
    + intros H. apply (Permutation_in _ (ORDER_BY_perm _ _)) in H.
      apply Hin in H. split; [apply all_statuses_complete | apply H].
    + intros [_ H]. apply (Permutation_in _ (Permutation_sym (ORDER_BY_perm _ _))).
      apply Hin. split; [exact H | intros []].
Qed.

Lemma present_perm :
  forall db db' s, Permutation db db' -> present db' s = present db s.
Proof.
  intros db db' s Hp.
  destruct (present db s) eqn:E.
  - apply present_iff in E. destruct E as [r [Hin H]].
    apply present_iff. exists r. split; [|exact H].
    now apply (Permutation_in _ Hp).
  - destruct (present db' s) eqn:E'; [|reflexivity].
    apply present_iff in E'. destruct E' as [r [Hin H]].
    assert (present db s = true) as Habs.
    { apply present_iff. exists r. split; [|exact H].
      now apply (Permutation_in _ (Permutation_sym Hp)). }
    rewrite Habs in E. discriminate E.
Qed.

(** C3: the by-stage breakdown has exactly one entry per status present in
    the data, in the order prospect, qualification, proposition,
    negociation, gagne, perdu; each entry carries the count and the total
    amount of its stage; the sequence of stages is the same for every
    reordering of the table; and deals inserted in the order perdu,
    prospect, gagne are reported as prospect, gagne, perdu. *)
Theorem stats_by_status_order :
  (forall db,
     exists s b,
       get_deals_stats db = Reply 200 (s, b)
       /\ map stage b = filter (present db) all_statuses
       /\ (forall row, In row b ->
             count row = Z.of_nat (List.length (at_stage (stage row) db))
             /\ (total row == sum_Q (map amount (at_stage (stage row) db)))%Q)
       /\ (forall db', Permutation db db' ->
             map stage (by_status_query db') = map stage b))
  /\ map status example_db = [perdu; prospect; gagne]
  /\ map stage (by_status_query example_db) = [prospect; gagne; perdu].
Proof.
  split; [|split; reflexivity].
  intros db. exists (summary_query db), (by_status_query db).
  split; [reflexivity|]. split; [apply by_status_stages|]. split.
  - intros row Hrow. unfold by_status_query in Hrow.
    apply (Permutation_in _ (ORDER_BY_perm _ _)) in Hrow.
    apply in_map_iff in Hrow. destruct Hrow as [s [<- _]]. simpl.
    split; [reflexivity|]. apply COALESCE_SUM_column.
  - intros db' Hp. rewrite !by_status_stages.
    apply filter_ext. intros s. now apply present_perm.
Qed.

(** ** LIKE and substrings *)

Lemma prefixb_iff :
  forall p t, prefixb p t = true <-> exists b, t = (p ++ b)%list.
Proof.
  induction p as [|c p IH]; intros t; simpl.
  - split; [intros _; now exists t | reflexivity].
  - destruct t as [|x t].
    + split; [discriminate | intros [b H]; discriminate H].
    + rewrite andb_true_iff, IH, N.eqb_eq. split.
      * intros [-> [b ->]]. now exists b.
      * intros [b H]. injection H as -> ->. split; [reflexivity | now exists b].
Qed.

(** [substringb] decides the occurrence of [q] inside [t]. *)
Lemma substringb_iff :
  forall q t, substringb q t = true <-> exists a b, t = (a ++ q ++ b)%list.
Proof.
  intros q t. induction t as [|x t IH].
  - simpl. rewrite orb_false_r, prefixb_iff. split.
    + intros [b H]. now exists [], b.
    + intros [a [b H]]. destruct a as [|y a]; [now exists b | discriminate H].
  - cbn [substringb]. rewrite orb_true_iff, prefixb_iff, IH. split.
    + intros [[b H] | [a [b H]]].
      * now exists [], b.
      * exists (x :: a), b. simpl. now rewrite H.
    + intros [a [b H]]. destruct a as [|y a].
      * left. now exists b.
      * right. injection H as _ H. now exists a, b.
Qed.

Lemma like_percent_unfold :
  forall p t,
    Sql.like (Sql.PERCENT :: p) t
    = Sql.like p t
      || match t with
         | [] => false
         | _ :: t' => Sql.like (Sql.PERCENT :: p) t'
         end.
Proof. intros p t. destruct t; reflexivity. Qed.

Lemma like_percent_only : forall t, Sql.like [Sql.PERCENT] t = true.
Proof.
  induction t as [|x t IH]; [reflexivity|].
  rewrite like_percent_unfold, IH. apply orb_true_r.
Qed.

Lemma like_plain_char :
  forall c p t,
    is_like_meta c = false ->
    Sql.like (c :: p) t
    = match t with
      | [] => false
      | x :: t' => N.eqb c x && Sql.like p t'
      end.
Proof.
  intros c p t H. unfold is_like_meta in H.
  apply orb_false_iff in H. destruct H as [H H3].
  apply orb_false_iff in H. destruct H as [H1 H2].
  cbn [Sql.like]. unfold Sql.PERCENT, Sql.UNDERSCORE, Sql.BACKSLASH.
  now rewrite H1, H2, H3.
Qed.

(** Without wildcards, the pattern [q%] matches the texts that start with
    [q]. *)
Lemma like_plain_prefix :
  forall q t,
    like_plain q = true ->
    Sql.like (q ++ [Sql.PERCENT])%list t = prefixb q t.
Proof.
  unfold like_plain. induction q as [|c q IH]; intros t Hq.
  - simpl app. apply like_percent_only.
  - simpl in Hq. apply andb_true_iff in Hq. destruct Hq as [Hc Hq].
    apply negb_true_iff in Hc.
    simpl app. rewrite (like_plain_char c _ t Hc).
    destruct t as [|x t]; [reflexivity|]. simpl. now rewrite IH.
Qed.

(** Without wildcards, the pattern [%q%] matches the texts that contain
    [q]. *)
Lemma like_plain_substring :
  forall q t,
    like_plain q = true ->
    Sql.like (Sql.PERCENT :: q ++ [Sql.PERCENT])%list t = substringb q t.
Proof.
  intros q t Hq. induction t as [|x t IH].
  - rewrite like_percent_unfold, like_plain_prefix by exact Hq.
    simpl. reflexivity.
  - rewrite like_percent_unfold, like_plain_prefix by exact Hq.
    cbn [substringb]. now rewrite IH.
Qed.

(** The patterns GET /deals builds never end in a lone escape character. *)
Lemma like_pattern_wellformed :
  forall p, Sql.like_wellformed (p ++ [Sql.PERCENT])%list = true
            /\ forall c, Sql.like_wellformed (c :: p ++ [Sql.PERCENT])%list = true.
Proof.
  induction p as [|x p [IH1 IH2]].
  - split; [reflexivity|]. intros c. simpl.
    destruct (N.eqb c Sql.BACKSLASH); reflexivity.
  - split; [apply IH2|]. intros c. simpl app.
    change (Sql.like_wellformed (c :: x :: p ++ [Sql.PERCENT])%list)
      with (if N.eqb c Sql.BACKSLASH
            then Sql.like_wellformed (p ++ [Sql.PERCENT])%list
            else Sql.like_wellformed (x :: p ++ [Sql.PERCENT])%list).
    destruct (N.eqb c Sql.BACKSLASH); [exact IH1 | apply IH2].
Qed.

(** The q condition of GET /deals, for a [q] that is plain once
    lower-cased, is the case-insensitive substring test. *)
Lemma q_condition_plain :
  forall (toLowerCase LOWER : text -> text) q t,
    like_plain (toLowerCase q) = true ->
    Sql.LIKE (LOWER t) (Sql.PERCENT :: toLowerCase q ++ [Sql.PERCENT])%list
    = contains_ci toLowerCase LOWER t q.
Proof.
  intros toLowerCase LOWER q t Hq. unfold Sql.LIKE, contains_ci.
  now apply like_plain_substring.
Qed.

(** ** Reads through the joins *)

Lemma LEFT_JOIN_proj :
  forall {A B C D : Type} (on : A -> B -> bool) (pair : A -> option B -> C)
         (left : C -> D) (proj : A -> D),
    (forall a ob, left (pair a ob) = proj a) ->
    forall (l : list A) (r : list B) (y : D),
      In y (map left (Sql.LEFT_JOIN on pair l r)) <-> In y (map proj l).
Proof.
  intros A B C D on pair left proj H l r y. unfold Sql.LEFT_JOIN.
  induction l as [|a l IH]; simpl; [reflexivity|].
  rewrite map_app, in_app_iff, IH.
  assert (Hhead :
            In y (map left
                    match filter (on a) r with
                    | [] => [pair a None]
                    | b :: ms => map (fun b0 => pair a (Some b0)) (b :: ms)
                    end) <-> proj a = y).
  { destruct (filter (on a) r) as [|b ms].
    - simpl. rewrite H. split; [intros [E|[]]; exact E | now left].
    - rewrite map_map, in_map_iff. split.
      + intros [b0 [E _]]. now rewrite H in E.
      + intros E. exists b. rewrite H. split; [exact E | now left]. }
  rewrite Hhead. reflexivity.
Qed.

(** The joins neither drop nor invent a deal. *)
Lemma deals_joined_In :
  forall dir db r, In r (map deal_of (deals_joined dir db)) <-> In r db.
Proof.
  intros dir db r. unfold deals_joined.
  rewrite (LEFT_JOIN_proj _ _ deal_of (fun x => fst (fst x))).
  2:{ intros [[r0 c] co] u. reflexivity. }
  rewrite (LEFT_JOIN_proj _ _ (fun x => fst (fst x)) (fun x => fst x)).
  2:{ intros x co. reflexivity. }
  rewrite (LEFT_JOIN_proj _ _ (fun x => fst x) (fun x => x)).
  2:{ intros r0 c. reflexivity. }
  now rewrite map_id.
Qed.

Section SearchFacts.

Variable toLowerCase : text -> text.
Variable LOWER : text -> text.

Lemma get_deals_In :
  forall dir query db l,
    get_deals toLowerCase LOWER dir query db = Reply 200 l ->
    forall r,
      In r (map deal_of l) <->
      In r db
      /\ forallb (fun c => c r) (where_clauses toLowerCase LOWER query) = true.
Proof.
  intros dir query db l H r. unfold get_deals in H. injection H as <-.
  rewrite in_map_iff. split.
  - intros [v [<- Hv]].
    apply (Permutation_in _ (ORDER_BY_perm _ _)) in Hv.
    apply filter_In in Hv. destruct Hv as [Hv Hw]. split; [|exact Hw].
    apply deals_joined_In with (dir := dir). now apply in_map.
  - intros [Hin Hw]. apply (deals_joined_In dir) in Hin.
    apply in_map_iff in Hin. destruct Hin as [v [<- Hv]].
    exists v. split; [reflexivity|].
    apply (Permutation_in _ (Permutation_sym (ORDER_BY_perm _ _))).
    apply filter_In. now split.
Qed.

Lemma where_only_q :
  forall q r,
    q <> [] ->
    forallb (fun c => c r) (where_clauses toLowerCase LOWER (only_q q))
    = Sql.LIKE (LOWER (title r))
        (Sql.PERCENT :: toLowerCase q ++ [Sql.PERCENT])%list.
Proof.
  intros q r Hq. destruct q as [|c q]; [contradiction|].
  unfold where_clauses, only_q. cbn [Query.status Query.assigned_to Query.q].
  cbn [Js.truthy Js.truthy_text andb app forallb Js.nullish]. apply andb_true_r.
Qed.

(** C9: for a non-empty [q], the list returns the deals whose title,
    lower-cased by the database, matches the LIKE pattern made of [%], [q]
    lower-cased by the server, and [%]; the pattern is always well formed;
    and when the lower-cased [q] holds none of the characters [%], [_] and
    backslash these are exactly the deals whose title contains [q] as a
    case-insensitive substring.  Only the title is consulted. *)
Theorem list_q_filter :
  forall dir q db,
    q <> [] ->
    exists l,
      get_deals toLowerCase LOWER dir (only_q q) db = Reply 200 l
      /\ Sql.like_wellformed
           (Sql.PERCENT :: toLowerCase q ++ [Sql.PERCENT])%list = true
      /\ (forall r,
            In r (map deal_of l) <->
            In r db
            /\ Sql.LIKE (LOWER (title r))
                 (Sql.PERCENT :: toLowerCase q ++ [Sql.PERCENT])%list = true)
      /\ (like_plain (toLowerCase q) = true ->
          forall r,
            In r (map deal_of l) <->
            In r db /\ contains_ci toLowerCase LOWER (title r) q = true).
Proof.
  intros dir q db Hq.
  destruct (get_deals toLowerCase LOWER dir (only_q q) db)
    as [code l | code e] eqn:E; [|discriminate E].
  assert (Hcode : code = 200) by (unfold get_deals in E; now injection E).
  subst code. exists l. split; [reflexivity|]. split; [|split].
  - apply (proj2 (like_pattern_wellformed _)).
  - intros r. rewrite (get_deals_In _ _ _ _ E), where_only_q by exact Hq.
    reflexivity.
  - intros Hplain r.
    rewrite (get_deals_In _ _ _ _ E), where_only_q by exact Hq.
    now rewrite q_condition_plain.
Qed.

End SearchFacts.

(** C9 as stated, an exact substring match for every [q], fails on a
    wildcard: with [q] the single character [_], GET /deals returns the
    three example deals, none of whose titles contains an underscore. *)
Lemma list_q_wildcard_counterexample :
  exists l,
    get_deals ascii_lower ascii_lower no_directory
      (only_q (text_of_string "_")) example_db = Reply 200 l
    /\ map (fun v => title (deal_of v)) l
       = map text_of_string ["Gamma 100%"; "Beta"; "Alpha"]
    /\ forallb
         (fun v =>
            negb (contains_ci ascii_lower ascii_lower (title (deal_of v))
                    (text_of_string "_"))) l
       = true.
Proof.
  eexists. split; [reflexivity|]. split; reflexivity.
Qed.

(** ** The maintained column *)

Section Maintained.

Variable probability_of : deal_status -> Q.
Variable toLowerCase : text -> text.
Variable LOWER : text -> text.

Lemma maintained_consistent :
  forall now r, weighted_consistent (maintained probability_of now r).
Proof. intros now r. unfold weighted_consistent. simpl. reflexivity. Qed.

Lemma update_consistent :
  forall now set key db,
    Forall weighted_consistent db ->
    Forall weighted_consistent
      (snd (UPDATE_where_id probability_of now set key db)).
Proof.
  intros now set key db H. unfold UPDATE_where_id. cbn [snd].
  induction H as [|r db Hr H IH]; simpl; constructor; [|exact IH].
  destruct (String.eqb (id r) key); [apply maintained_consistent | exact Hr].
Qed.

Lemma post_consistent :
  forall new_id now body db,
    Forall weighted_consistent db ->
    Forall weighted_consistent (snd (post_deals probability_of new_id now body db)).
Proof.
  intros new_id now body db H. unfold post_deals.
  destruct (option_map Js.trim (Body.title body)) as [[|c s]|]; try exact H.
  destruct (negb _); [exact H|].
  destruct (cast_deal_status _); [|exact H].
  cbn [INSERT_deal snd]. apply Forall_app. split; [exact H|].
  constructor; [apply maintained_consistent | constructor].
Qed.

Lemma put_consistent :
  forall now key body db,
    Forall weighted_consistent db ->
    Forall weighted_consistent (snd (put_deal probability_of now key body db)).
Proof.
  intros now key body db H. unfold put_deal.
  destruct (option_map Js.trim (Body.title body)) as [[|c s]|]; try exact H.
  destruct (_ && _); [exact H|].
  destruct (cast_deal_status _); [|exact H].
  match goal with
  | |- context [UPDATE_where_id _ ?n ?f ?k ?d] =>
      pose proof (update_consistent n f k d H) as Hu;
      destruct (UPDATE_where_id probability_of n f k d) as [rows db']
  end.
  destruct rows; exact Hu.
Qed.

Lemma patch_consistent :
  forall now key status db,
    Forall weighted_consistent db ->
    Forall weighted_consistent
      (snd (patch_deal_status probability_of now key status db)).
Proof.
  intros now key status db H. unfold patch_deal_status.
  destruct (negb _); [exact H|].
  destruct (cast_deal_status _); [|exact H].
  match goal with
  | |- context [UPDATE_where_id _ ?n ?f ?k ?d] =>
      pose proof (update_consistent n f k d H) as Hu;
      destruct (UPDATE_where_id probability_of n f k d) as [rows db']
  end.
  destruct rows; exact Hu.
Qed.

Lemma delete_consistent :
  forall key db,
    Forall weighted_consistent db ->
    Forall weighted_consistent (snd (delete_deal key db)).
Proof.
  intros key db H. unfold delete_deal.
  assert (Hf : Forall weighted_consistent
                 (filter (fun r => negb (String.eqb (id r) key)) db)).
  { rewrite Forall_forall in H |- *. intros r Hr.
    apply filter_In in Hr. now apply H. }
  destruct (filter (fun r => String.eqb (id r) key) db); exact Hf.
Qed.

Lemma reachable_consistent :
  forall db, reachable probability_of db -> Forall weighted_consistent db.
Proof.
  intros db H. induction H.
  - constructor.
  - now apply post_consistent.
  - now apply put_consistent.
  - now apply patch_consistent.
  - now apply delete_consistent.
Qed.

(** C8: in every table the handlers can produce, each deal read back, by the
    list under any filter or by id, has [weighted_amount] equal to
    [amount * probability / 100]. *)
Theorem weighted_amount_read_back :
  forall db,
    reachable probability_of db ->
    forall dir,
      (forall query l v,
         get_deals toLowerCase LOWER dir query db = Reply 200 l -> In v l ->
         (weighted_amount (deal_of v)
          == amount (deal_of v) * probability (deal_of v) / 100)%Q)
      /\ (forall key v,
            get_deal dir key db = Reply 200 v ->
            (weighted_amount (deal_of v)
             == amount (deal_of v) * probability (deal_of v) / 100)%Q).
Proof.
  intros db Hreach dir.
  pose proof (reachable_consistent db Hreach) as Hall.
  rewrite Forall_forall in Hall. split.
  - intros query l v Hget Hv. apply Hall.
    apply (get_deals_In toLowerCase LOWER dir query db l Hget). now apply in_map.
  - intros key v Hget. apply Hall. unfold get_deal in Hget.
    destruct (filter (fun v0 => String.eqb (id (deal_of v0)) key) (deals_joined dir db))
      as [|v0 rest] eqn:E; [discriminate Hget|].
    injection Hget as <-.
    assert (Hin : In v0 (filter (fun v1 => String.eqb (id (deal_of v1)) key)
                           (deals_joined dir db))) by (rewrite E; now left).
    apply filter_In in Hin. destruct Hin as [Hin _].
    apply (deals_joined_In dir). now apply in_map.
Qed.

End Maintained.

(** ** The theorems at the example table *)

(** The example table holds a deal with id d2. *)
Lemma example_db_has_d2 : exists r, In r example_db /\ id r = "d2".
Proof.
  vm_compute. eexists. split; [right; left; reflexivity | reflexivity].
Defined.

(** No deal of the example table has id zz. *)
Lemma example_db_lacks_zz : forall r, In r example_db -> id r <> "zz".
Proof.
  intros r Hr. vm_compute in Hr.
  destruct Hr as [<- | [<- | [<- | []]]]; vm_compute; intros E; discriminate E.
Defined.

(** The title of an example body is the trimmed text of its literal. *)
Lemma example_title : forall title t status amount,
  whitespace_only (text_of_string title) = false ->
  Js.trim (text_of_string title) = t ->
  title_of (example_body title status amount) t.
Proof.
  intros title t status amount H1 H2. exists (text_of_string title).
  split; [reflexivity|]. subst t. now apply trim_trimmed_of.
Defined.

(** Moving the deal d2 of the example table to gagne. *)
Lemma transition_sets_closed_at_witness :
  In "gagne" ALLOWED_STATUSES
  /\ (exists r, In r example_db /\ id r = "d2")
  /\ exists row,
       fst (patch_deal_status example_probability 9 "d2" (Some "gagne") example_db)
       = Reply 200 row
       /\ id row = "d2".
Proof.
  assert (H1 : In "gagne" ALLOWED_STATUSES) by (simpl; auto 10).
  split; [exact H1|]. split; [exact example_db_has_d2|].
  destruct (transition_sets_closed_at example_probability 9 "d2" "gagne"
              example_db H1 example_db_has_d2) as [row [Hr [Hid _]]].
  exists row. split; [exact Hr | exact Hid].
Defined.

(** An unknown status and an unknown id on the example table. *)
Lemma transition_frame_witness :
  patch_deal_status example_probability 9 "d2" (Some "unknown") example_db
  = (InvalidStatus, example_db)
  /\ patch_deal_status example_probability 9 "zz" (Some "gagne") example_db
     = (NotFound, example_db).
Proof.
  split.
  - apply (proj1 (transition_frame example_probability 9 "d2" (Some "unknown")
                    example_db)).
    intros s E Hin. injection E as <-. simpl in Hin.
    repeat (destruct Hin as [Hin | Hin]; [discriminate Hin|]). exact Hin.
  - assert (H1 : In "gagne" ALLOWED_STATUSES) by (simpl; auto 10).
    apply (proj1 (proj2 (transition_frame example_probability 9 "zz" (Some "gagne")
                           example_db) "gagne" eq_refl H1)).
    exact example_db_lacks_zz.
Defined.

(** The deal d2, moved to gagne at time 9 and so closed, is updated
    without a status: it is back at prospect with no closing time. *)
Lemma update_without_status_resets_witness :
  title_of (example_body " Gamma " None None) (text_of_string "Gamma")
  /\ (exists r,
        In r closed_db /\ id r = "d2"
        /\ status r = gagne /\ closed_at r = Some 9)
  /\ exists row,
       fst (put_deal example_probability 12 "d2" (example_body " Gamma " None None)
              closed_db) = Reply 200 row
       /\ id row = "d2"
       /\ status row = prospect
       /\ closed_at row = None.
Proof.
  assert (Ht : title_of (example_body " Gamma " None None) (text_of_string "Gamma"))
    by (apply example_title; reflexivity).
  assert (Hex : exists r,
             In r closed_db /\ id r = "d2"
             /\ status r = gagne /\ closed_at r = Some 9).
  { vm_compute. eexists. split; [right; left; reflexivity|]. repeat split. }
  split; [exact Ht|]. split; [exact Hex|].
  assert (Hex' : exists r, In r closed_db /\ id r = "d2").
  { destruct Hex as [r [H1 [H2 _]]]. now exists r. }
  destruct (update_without_status_resets example_probability 12 "d2"
              (example_body " Gamma " None None) closed_db (text_of_string "Gamma")
              Ht (or_introl eq_refl) Hex') as [row [Hr [Hid [Hin Hall]]]].
  exists row. split; [exact Hr|]. split; [exact Hid|]. exact (Hall row Hin Hid).
Defined.

(** The deal d7, linked to the contact c1 and assigned to u9, is updated
    with a body that names no contact and no assignee and asks for perdu:
    the references are gone and the deal is closed at the time of the
    update. *)
Lemma update_full_replace_witness :
  title_of (example_body "Gamma" (Some "perdu") None) (text_of_string "Gamma")
  /\ status_of (example_body "Gamma" (Some "perdu") None) perdu
  /\ (exists r,
        In r linked_db /\ id r = "d7"
        /\ contact_id r = Some "c1" /\ assigned_to r = Some "u9"
        /\ status r = prospect)
  /\ exists row,
       fst (put_deal example_probability 12 "d7"
              (example_body "Gamma" (Some "perdu") None) linked_db) = Reply 200 row
       /\ id row = "d7"
       /\ title row = text_of_string "Gamma"
       /\ contact_id row = None /\ assigned_to row = None
       /\ status row = perdu /\ closed_at row = Some 12.
Proof.
  assert (Ht : title_of (example_body "Gamma" (Some "perdu") None)
                 (text_of_string "Gamma"))
    by (apply example_title; reflexivity).
  assert (Hs : status_of (example_body "Gamma" (Some "perdu") None) perdu)
    by reflexivity.
  assert (Hex : exists r,
             In r linked_db /\ id r = "d7"
             /\ contact_id r = Some "c1" /\ assigned_to r = Some "u9"
             /\ status r = prospect).
  { vm_compute. eexists. split; [do 3 right; left; reflexivity|]. repeat split. }
  split; [exact Ht|]. split; [exact Hs|]. split; [exact Hex|].
  assert (Hex' : exists r, In r linked_db /\ id r = "d7").
  { destruct Hex as [r [H1 [H2 _]]]. now exists r. }
  destruct (proj1 (proj2 (update_full_replace example_probability 12 "d7"
                            (example_body "Gamma" (Some "perdu") None) linked_db
                            (text_of_string "Gamma") perdu Ht Hs)) Hex')
    as [row [Hr [Hid _]]].
  exists row. split; [exact Hr|]. split; [exact Hid|].
  vm_compute in Hr. injection Hr as <-. repeat split.
Defined.

(** Creating a fourth deal without status nor amount. *)
Lemma create_outcomes_witness :
  title_of (example_body "Delta" None None) (text_of_string "Delta")
  /\ status_of (example_body "Delta" None None) prospect
  /\ exists row,
       post_deals example_probability "d4" 4 (example_body "Delta" None None)
         example_db = (Reply 201 row, (example_db ++ [row])%list)
       /\ status row = prospect
       /\ amount row = 0%Q.
Proof.
  assert (Ht : title_of (example_body "Delta" None None) (text_of_string "Delta"))
    by (apply example_title; reflexivity).
  assert (Hs : status_of (example_body "Delta" None None) prospect)
    by reflexivity.
  split; [exact Ht|]. split; [exact Hs|].
  destruct (create_outcomes example_probability "d4" 4
              (example_body "Delta" None None) example_db) as [_ [_ [_ H]]].
  destruct (proj2 (H (text_of_string "Delta") Ht) prospect Hs)
    as [row [Hr [_ [_ [Hst [_ [_ [Ham _]]]]]]]].
  exists row. split; [exact Hr|]. split; [exact Hst | exact (Ham eq_refl)].
Defined.

(** Searching the example table for a plain word. *)
Lemma list_q_filter_witness :
  text_of_string "alp" <> []
  /\ like_plain (ascii_lower (text_of_string "alp")) = true
  /\ exists l,
       get_deals ascii_lower ascii_lower no_directory
         (only_q (text_of_string "alp")) example_db = Reply 200 l
       /\ forall r,
            In r (map deal_of l) <->
            In r example_db
            /\ contains_ci ascii_lower ascii_lower (title r) (text_of_string "alp")
               = true.
Proof.
  assert (Hq : text_of_string "alp" <> []) by discriminate.
  split; [exact Hq|]. split; [reflexivity|].
  destruct (list_q_filter ascii_lower ascii_lower no_directory
              (text_of_string "alp") example_db Hq)
    as [l [Hl [_ [_ Hplain]]]].
  exists l. split; [exact Hl | exact (Hplain eq_refl)].
Defined.

(** The example table is built by three creations. *)
Lemma example_db_reachable : reachable example_probability example_db.
Proof.
  unfold example_db. cbv zeta. repeat apply reach_post. apply reach_empty.
Defined.

(** Every deal listed from the example table is consistent. *)
Lemma weighted_amount_read_back_witness :
  reachable example_probability example_db
  /\ forall query l v,
       get_deals ascii_lower ascii_lower no_directory query example_db
       = Reply 200 l ->
       In v l ->
       (weighted_amount (deal_of v)
        == amount (deal_of v) * probability (deal_of v) / 100)%Q.
Proof.
  split; [exact example_db_reachable|].
  exact (proj1 (weighted_amount_read_back example_probability
                  ascii_lower ascii_lower example_db
                  example_db_reachable no_directory)).
Defined.

(** Reversing the example table does not change the order of the stages. *)
Lemma stats_by_status_order_witness :
  Permutation example_db (rev example_db)
  /\ map stage (by_status_query (rev example_db))
     = map stage (by_status_query example_db).
Proof.
  split; [apply Permutation_rev|].
  destruct (proj1 stats_by_status_order example_db)
    as [s [b [Hget [_ [_ Hperm]]]]].
  unfold get_deals_stats in Hget. injection Hget as _ <-.
  exact (Hperm (rev example_db) (Permutation_rev example_db)).
Defined.

(** The summary of the example table, one deal at perdu, one at prospect
    and one at gagne, and the summary of the empty table. *)
Lemma stats_summary_witness :
  (exists s b,
     get_deals_stats example_db = Reply 200 (s, b)
     /\ total_deals s = 3
     /\ (total_value s == 1800)%Q
     /\ (won_value s == 500)%Q
     /\ active_deals s = 1)
  /\ (exists s b,
        get_deals_stats [] = Reply 200 (s, b)
        /\ s = mkSummary 0 0%Q 0%Q 0%Q 0).
Proof.
  split.
  - destruct (stats_summary example_db)
      as [s [b [Hget [Ht [Hv [_ [Hw [Ha _]]]]]]]].
    exists s, b. split; [exact Hget|].
    split; [rewrite Ht; reflexivity|].
    split; [rewrite Hv; vm_compute; reflexivity|].
    split; [rewrite Hw; vm_compute; reflexivity|].
    rewrite Ha. reflexivity.
  - destruct (stats_summary []) as [s [b [Hget [_ [_ [_ [_ [_ [_ [_ Hz]]]]]]]]]].
    exists s, b. split; [exact Hget | exact (Hz eq_refl)].
Defined.

(** * Further properties of the deals router *)

(** ** GET /deals *)

Section OrderByTotal.

Context {A : Type} (leb : A -> A -> bool).
Hypothesis leb_total : forall a b, leb a b = true \/ leb b a = true.
Hypothesis leb_trans :
  forall a b c, leb a b = true -> leb b c = true -> leb a c = true.

Lemma insert_sorted_total :
  forall x l,
    StronglySorted (fun a b => leb a b = true) l ->
    StronglySorted (fun a b => leb a b = true) (Sql.insert_sorted leb x l).
Proof.
  intros x l Hs. induction Hs as [|y l Hs IH Hy]; simpl.
  - constructor; constructor.
  - destruct (leb x y) eqn:E.
    + constructor; [now constructor|].
      constructor; [exact E|].
      eapply Forall_impl; [|exact Hy]. simpl. intros z Hz.
      now apply leb_trans with y.
    + constructor; [exact IH|].
      eapply Permutation_Forall.
      * apply Permutation_sym, insert_sorted_perm.
      * constructor; [|exact Hy].
        destruct (leb_total x y) as [H|H]; [congruence | exact H].
Qed.

Lemma ORDER_BY_sorted_total :
  forall l, StronglySorted (fun a b => leb a b = true) (Sql.ORDER_BY leb l).
Proof.
  induction l as [|x l IH]; simpl.
  - constructor.
  - now apply insert_sorted_total.
Qed.

(** On a sorted list, removing the rows that fail a test and inserting
    commute. *)
Lemma filter_insert_sorted :
  forall (p : A -> bool) x l,
    StronglySorted (fun a b => leb a b = true) l ->
    filter p (Sql.insert_sorted leb x l)
    = if p x then Sql.insert_sorted leb x (filter p l) else filter p l.
Proof.
  intros p x l Hs. induction Hs as [|y l Hs IH Hy]; simpl.
  - now destruct (p x).
  - destruct (leb x y) eqn:E.
    + simpl. destruct (p x) eqn:Px; [|reflexivity].
      destruct (p y) eqn:Py.
      * simpl. now rewrite E.
      * (* every later row is above [x] as well *)
        assert (Hall : Forall (fun z => leb x z = true) l).
        { eapply Forall_impl; [|exact Hy]. simpl. intros z Hz.
          now apply leb_trans with y. }
        clear - Hall. induction Hall as [|z l Hz Hall IHl]; simpl; [reflexivity|].
        destruct (p z); [|exact IHl]. simpl. now rewrite Hz.
    + simpl. rewrite IH. destruct (p y) eqn:Py; destruct (p x) eqn:Px;
        simpl; try reflexivity. now rewrite E.
Qed.

Lemma filter_ORDER_BY :
  forall (p : A -> bool) l,
    filter p (Sql.ORDER_BY leb l) = Sql.ORDER_BY leb (filter p l).
Proof.
  intros p l. induction l as [|x l IH]; simpl; [reflexivity|].
  rewrite filter_insert_sorted by apply ORDER_BY_sorted_total.
  rewrite IH. now destruct (p x).
Qed.

End OrderByTotal.

Lemma created_desc_total :
  forall a b, created_desc a b = true \/ created_desc b a = true.
Proof.
  intros a b. unfold created_desc.
  destruct (Z.leb_spec (created_at (deal_of b)) (created_at (deal_of a)));
    [now left | right; apply Z.leb_le; lia].
Qed.

Lemma created_desc_trans :
  forall a b c,
    created_desc a b = true -> created_desc b c = true -> created_desc a c = true.
Proof.
  unfold created_desc. intros a b c H1 H2.
  apply Z.leb_le in H1. apply Z.leb_le in H2. apply Z.leb_le. lia.
Qed.

Section ListFacts.

Variable toLowerCase : text -> text.
Variable LOWER : text -> text.

(** The list is ordered by creation time, most recent first, whatever the
    filters. *)
Theorem list_sorted_by_creation :
  forall dir query db,
    exists l,
      get_deals toLowerCase LOWER dir query db = Reply 200 l
      /\ StronglySorted
           (fun a b => created_at (deal_of b) <= created_at (deal_of a)) l.
Proof.
  intros dir query db. eexists. split; [reflexivity|].
  eapply StronglySorted_ind
    with (P := StronglySorted
                 (fun a b => created_at (deal_of b) <= created_at (deal_of a)));
    [constructor | |
     apply (ORDER_BY_sorted_total created_desc created_desc_total created_desc_trans)].
  intros a l _ IH Ha. constructor; [exact IH|].
  eapply Forall_impl; [|exact Ha]. simpl. intros b Hb.
  unfold created_desc in Hb. now apply Z.leb_le.
Qed.

Lemma and_iff_both :
  forall A B C D : Prop, (A <-> B) -> (C <-> D) -> (A /\ C <-> B /\ D).
Proof. tauto. Qed.

Lemma selected_iff :
  forall query r,
    selected toLowerCase LOWER query r = true <->
    (forall s, Query.status query = Some s -> In s ALLOWED_STATUSES ->
               status_text (status r) = s)
    /\ (forall u, Query.assigned_to query = Some u -> u <> "" ->
                  assigned_to r = Some u)
    /\ (forall q, Query.q query = Some q -> q <> [] ->
                  Sql.LIKE (LOWER (title r))
                    (Sql.PERCENT :: toLowerCase q ++ [Sql.PERCENT])%list = true).
Proof.
  intros [qs qa qq] r. unfold selected, where_clauses.
  cbn [Query.status Query.assigned_to Query.q].
  rewrite !forallb_app, !andb_true_iff.
  apply and_iff_both; [|apply and_iff_both].
  - destruct qs as [s|].
    + destruct (Js.includes ALLOWED_STATUSES (Some s)) eqn:E.
      * assert (Hs : Js.truthy (Some s) = true).
        { apply includes_allowed_text in E. destruct E as [st ->]. now destruct st. }
        rewrite Hs. cbn [andb forallb Js.nullish]. rewrite andb_true_r, String.eqb_eq.
        apply includes_allowed_In in E. split.
        -- intros H s' [= <-] _. exact H.
        -- intros H. now apply H.
      * rewrite andb_false_r. cbn [forallb]. split; [|reflexivity].
        intros _ s' [= <-] Hin. apply includes_allowed_In in Hin. congruence.
    + cbn [Js.truthy andb forallb]. split; [|reflexivity].
      intros _ s' H. discriminate H.
  - destruct qa as [[|c u]|]; cbn [Js.truthy forallb Js.nullish].
    + split; [|reflexivity]. intros _ u' [= <-] H. now elim H.
    + rewrite andb_true_r. unfold Sql.eq_nullable.
      destruct (assigned_to r) as [v|].
      * rewrite String.eqb_eq. split.
        -- intros <- u' [= <-] _. reflexivity.
        -- intros H. specialize (H _ eq_refl). assert (String c u <> "") as Hne by discriminate.
           specialize (H Hne). now injection H.
      * split; [discriminate|]. intros H.
        assert (String c u <> "") as Hne by discriminate.
        specialize (H _ eq_refl Hne). discriminate H.
    + split; [|reflexivity]. intros _ u' H. discriminate H.
  - destruct qq as [[|c q]|]; cbn [Js.truthy_text forallb Js.nullish].
    + split; [|reflexivity]. intros _ q' [= <-] H. now elim H.
    + rewrite andb_true_r. split.
      * intros H q' [= <-] _. exact H.
      * intros H. apply H; [reflexivity | discriminate].
    + split; [|reflexivity]. intros _ q' H. discriminate H.
Qed.

(** The three filters are conjunctive: a deal is listed exactly when it is
    in the table and passes every filter that is in force.  A status filter
    is in force only for a member of the enumeration, the two others only
    for a non-empty value; a deal without assignee never passes an assignee
    filter; and the search filter asks that the title, lower-cased by the
    database, match the pattern made of [%], the search text lower-cased by
    the server, and [%]. *)
Theorem list_filters_conjunctive :
  forall dir query db,
    exists l,
      get_deals toLowerCase LOWER dir query db = Reply 200 l
      /\ forall r,
           In r (map deal_of l) <->
           In r db
           /\ (forall s, Query.status query = Some s -> In s ALLOWED_STATUSES ->
                         status_text (status r) = s)
           /\ (forall u, Query.assigned_to query = Some u -> u <> "" ->
                         assigned_to r = Some u)
           /\ (forall q, Query.q query = Some q -> q <> [] ->
                         Sql.LIKE (LOWER (title r))
                           (Sql.PERCENT :: toLowerCase q ++ [Sql.PERCENT])%list
                         = true).
Proof.
  intros dir query db. eexists. split; [reflexivity|].
  intros r. rewrite (get_deals_In toLowerCase LOWER dir query db _ eq_refl).
  fold (selected toLowerCase LOWER query r). now rewrite selected_iff.
Qed.

End ListFacts.

(** ** The joins of the read queries *)

Lemma LEFT_JOIN_In :
  forall {A B C : Type} (on : A -> B -> bool) (pair : A -> option B -> C)
         (l : list A) (r : list B) (x : C),
    In x (Sql.LEFT_JOIN on pair l r) <->
    exists a,
      In a l
      /\ ((x = pair a None /\ forall b, In b r -> on a b = false)
          \/ exists b, x = pair a (Some b) /\ In b r /\ on a b = true).
Proof.
  intros A B C on pair l r x. unfold Sql.LEFT_JOIN. rewrite in_flat_map.
  split; intros [a [Ha H]]; exists a; (split; [exact Ha|]).
  - destruct (filter (on a) r) as [|b ms] eqn:E.
    + destruct H as [<- | []]. left. split; [reflexivity|].
      intros b Hb. destruct (on a b) eqn:Eb; [|reflexivity].
      assert (In b (filter (on a) r)) as Hin by (apply filter_In; now split).
      rewrite E in Hin. destruct Hin.
    + right. apply in_map_iff in H. destruct H as [b0 [<- Hb0]].
      rewrite <- E in Hb0. apply filter_In in Hb0. exists b0. now split.
  - destruct H as [[-> Hnone] | [b [-> [Hb Hon]]]].
    + assert (filter (on a) r = []) as ->; [|now left].
      destruct (filter (on a) r) as [|b ms] eqn:E; [reflexivity|].
      assert (In b (filter (on a) r)) as Hin by (rewrite E; now left).
      apply filter_In in Hin. destruct Hin as [Hin Hon].
      rewrite (Hnone b Hin) in Hon. discriminate Hon.
    + assert (In b (filter (on a) r)) as Hin by (apply filter_In; now split).
      destruct (filter (on a) r) as [|b0 ms]; [destruct Hin|].
      apply in_map_iff. now exists b.
Qed.

Lemma eq_nullable_iff :
  forall key col, Sql.eq_nullable key col = true <-> col = Some key.
Proof.
  intros key [v|]; simpl.
  - rewrite String.eqb_eq. split; [now intros -> | now intros [= ->]].
  - split; discriminate.
Qed.

Lemma eq_nullable_joined :
  forall {B : Type} (key : B -> string) (table : list B) (col : option string)
         (o : option B),
    match o with
    | Some b => In b table /\ Sql.eq_nullable (key b) col = true
    | None => forall b, In b table -> Sql.eq_nullable (key b) col = false
    end ->
    joined_row key table col o.
Proof.
  intros B key table col [b|]; simpl.
  - intros [Hin H]. split; [exact Hin | now apply eq_nullable_iff].
  - intros H b Hb E. apply eq_nullable_iff in E. rewrite (H b Hb) in E.
    discriminate E.
Qed.

(** Every joined row is a deal of the table with the columns of the rows it
    links to. *)
Lemma deals_joined_view :
  forall dir db v,
    In v (deals_joined dir db) ->
    In (deal_of v) db
    /\ exists c co u,
         joined_row Contact.id (contacts dir) (contact_id (deal_of v)) c
         /\ joined_row Company.id (companies dir) (company_id (deal_of v)) co
         /\ joined_row User.id (users dir) (assigned_to (deal_of v)) u
         /\ first_name v = column Contact.first_name c
         /\ last_name v = column Contact.last_name c
         /\ contact_email v = column Contact.email c
         /\ company_name v = column Company.name co
         /\ assigned_first_name v = column User.first_name u
         /\ assigned_last_name v = column User.last_name u.
Proof.
  intros dir db v Hv. unfold deals_joined in Hv.
  apply LEFT_JOIN_In in Hv. destruct Hv as [[[r c] co] [H2 H3]].
  apply LEFT_JOIN_In in H2. destruct H2 as [[r' c'] [H1 H2]].
  apply LEFT_JOIN_In in H1. destruct H1 as [r0 [H0 H1]].
  assert (Hc : (r', c') = (r0, c')
               /\ joined_row Contact.id (contacts dir) (contact_id r0) c').
  { destruct H1 as [[E Hn] | [b [E [Hb Hon]]]]; injection E as -> ->;
      (split; [reflexivity|]); apply eq_nullable_joined; [exact Hn | now split]. }
  destruct Hc as [E Hc]. injection E as ->.
  assert (Hco : (r, c, co) = (r0, c', co)
                /\ joined_row Company.id (companies dir) (company_id r0) co).
  { destruct H2 as [[E Hn] | [b [E [Hb Hon]]]]; injection E as -> -> ->;
      (split; [reflexivity|]); apply eq_nullable_joined; [exact Hn | now split]. }
  destruct Hco as [E Hco]. injection E as -> ->.
  destruct H3 as [[-> Hn] | [b [-> [Hb Hon]]]]; cbn [deal_of first_name last_name
    contact_email company_name assigned_first_name assigned_last_name];
    (split; [exact H0|]).
  - exists c', co, None. repeat split; try assumption.
    now apply (eq_nullable_joined User.id (users dir) (assigned_to r0) None).
  - exists c', co, (Some b). repeat split; try assumption.
    apply (eq_nullable_joined User.id (users dir) (assigned_to r0) (Some b)).
    now split.
Qed.

Lemma filter_unique_key :
  forall {B : Type} (key : B -> string) (table : list B) (col : option string),
    NoDup (map key table) ->
    (List.length (filter (fun b => Sql.eq_nullable (key b) col) table) <= 1)%nat.
Proof.
  intros B key table col Hnd. induction table as [|b table IH]; simpl; [lia|].
  inversion Hnd as [|? ? Hnotin Hnd']; subst.
  destruct (Sql.eq_nullable (key b) col) eqn:E; [|now apply IH].
  simpl. apply eq_nullable_iff in E.
  assert (filter (fun b0 => Sql.eq_nullable (key b0) col) table = []) as ->;
    [|simpl; lia].
  destruct (filter (fun b0 => Sql.eq_nullable (key b0) col) table) as [|x xs] eqn:F;
    [reflexivity|].
  assert (In x (filter (fun b0 => Sql.eq_nullable (key b0) col) table)) as Hin
      by (rewrite F; now left).
  apply filter_In in Hin. destruct Hin as [Hin Hx].
  apply eq_nullable_iff in Hx. rewrite E in Hx. injection Hx as Hx.
  exfalso. apply Hnotin. rewrite Hx. now apply in_map.
Qed.

Lemma LEFT_JOIN_single :
  forall {A B C D : Type} (on : A -> B -> bool) (pair : A -> option B -> C)
         (left : C -> D) (proj : A -> D) (l : list A) (r : list B),
    (forall a ob, left (pair a ob) = proj a) ->
    (forall a, (List.length (filter (on a) r) <= 1)%nat) ->
    map left (Sql.LEFT_JOIN on pair l r) = map proj l.
Proof.
  intros A B C D on pair left proj l r H Hone. unfold Sql.LEFT_JOIN.
  induction l as [|a l IH]; [reflexivity|].
  cbn [flat_map]. rewrite map_app, IH. cbn [map].
  change (proj a :: map proj l) with ([proj a] ++ map proj l)%list. f_equal.
  specialize (Hone a). destruct (filter (on a) r) as [|b [|b' ms]]; simpl in *.
  - now rewrite H.
  - now rewrite H.
  - lia.
Qed.

(** With unique keys in the joined tables, the joins keep the table as it
    is: one row per deal, in table order. *)
Lemma deals_joined_unique :
  forall dir db, unique_keys dir -> map deal_of (deals_joined dir db) = db.
Proof.
  intros dir db [Hc [Hco Hu]]. unfold deals_joined.
  rewrite (LEFT_JOIN_single _ _ deal_of (fun x => fst (fst x))).
  2:{ intros [[r0 c] co] u. reflexivity. }
  2:{ intros a. now apply filter_unique_key. }
  rewrite (LEFT_JOIN_single _ _ (fun x => fst (fst x)) (fun x => fst x)).
  2:{ intros x co. reflexivity. }
  2:{ intros a. now apply filter_unique_key. }
  rewrite (LEFT_JOIN_single _ _ (fun x => fst x) (fun x => x)).
  2:{ intros r0 c. reflexivity. }
  2:{ intros a. now apply filter_unique_key. }
  apply map_id.
Qed.

Lemma map_filter_comm :
  forall {A B : Type} (f : A -> B) (p : B -> bool) (l : list A),
    map f (filter (fun x => p (f x)) l) = filter p (map f l).
Proof.
  intros A B f p l. induction l as [|x l IH]; simpl; [reflexivity|].
  destruct (p (f x)); simpl; now rewrite IH.
Qed.

(** When the keys of the joined tables are unique, every selected deal is
    listed exactly once. *)
Theorem list_once_per_deal :
  forall (toLowerCase LOWER : text -> text) dir query db,
    unique_keys dir ->
    exists l,
      get_deals toLowerCase LOWER dir query db = Reply 200 l
      /\ Permutation (map deal_of l)
           (filter (selected toLowerCase LOWER query) db).
Proof.
  intros toLowerCase LOWER dir query db Hu. eexists. split; [reflexivity|].
  eapply Permutation_trans.
  - apply Permutation_map. apply ORDER_BY_perm.
  - unfold selected.
    rewrite (map_filter_comm deal_of
               (fun r => forallb (fun c => c r)
                           (where_clauses toLowerCase LOWER query))).
    rewrite (deals_joined_unique dir db Hu). apply Permutation_refl.
Qed.

(** ** GET /deals/:id *)

Lemma joined_of_row :
  forall dir db r, In r db -> exists v, In v (deals_joined dir db) /\ deal_of v = r.
Proof.
  intros dir db r Hr. apply (deals_joined_In dir) in Hr.
  apply in_map_iff in Hr. destruct Hr as [v [E Hv]]. now exists v.
Qed.

Lemma get_deal_cases :
  forall dir key db,
    (get_deal dir key db = NotFound <-> absent key db)
    /\ (forall v, get_deal dir key db = Reply 200 v ->
                  In (deal_of v) db /\ id (deal_of v) = key)
    /\ (absent key db \/ exists v, get_deal dir key db = Reply 200 v).
Proof.
  intros dir key db. unfold get_deal.
  destruct (filter (fun v => String.eqb (id (deal_of v)) key) (deals_joined dir db))
    as [|v0 rest] eqn:E.
  - assert (Habs : absent key db).
    { intros r Hr Hid. destruct (joined_of_row dir db r Hr) as [v [Hv Hd]].
      assert (In v (filter (fun v => String.eqb (id (deal_of v)) key)
                      (deals_joined dir db))) as Hin.
      { apply filter_In. split; [exact Hv|]. rewrite Hd, Hid. apply String.eqb_refl. }
      rewrite E in Hin. destruct Hin. }
    split; [split; [intros _; exact Habs | reflexivity]|].
    split; [intros v H; discriminate H | now left].
  - assert (Hin : In v0 (filter (fun v => String.eqb (id (deal_of v)) key)
                           (deals_joined dir db))) by (rewrite E; now left).
    apply filter_In in Hin. destruct Hin as [Hin Hid].
    apply String.eqb_eq in Hid.
    assert (Hdb : In (deal_of v0) db).
    { apply (deals_joined_In dir). now apply in_map. }
    split; [split; [intros H; discriminate H|]|].
    + intros Habs. elim (Habs _ Hdb Hid).
    + split; [|right; now exists v0].
      intros v [= <-]. now split.
Qed.

(** Reading a deal by id fails with NotFound exactly when no deal has the
    id; otherwise the answer is a deal of the table with that id. *)
Theorem get_deal_outcomes :
  forall dir key db,
    (get_deal dir key db = NotFound <-> absent key db)
    /\ (forall v, get_deal dir key db = Reply 200 v ->
                  In (deal_of v) db /\ id (deal_of v) = key)
    /\ (absent key db \/ exists v, get_deal dir key db = Reply 200 v).
Proof. exact get_deal_cases. Qed.

(** The display columns of a deal read by id come from the contact, company
    and user its references name; a reference that is NULL or names no row
    yields NULL columns, never an error. *)
Theorem get_deal_enrichment :
  forall dir key db v,
    get_deal dir key db = Reply 200 v ->
    exists c co u,
      joined_row Contact.id (contacts dir) (contact_id (deal_of v)) c
      /\ joined_row Company.id (companies dir) (company_id (deal_of v)) co
      /\ joined_row User.id (users dir) (assigned_to (deal_of v)) u
      /\ first_name v = column Contact.first_name c
      /\ last_name v = column Contact.last_name c
      /\ contact_email v = column Contact.email c
      /\ company_name v = column Company.name co
      /\ assigned_first_name v = column User.first_name u
      /\ assigned_last_name v = column User.last_name u.
Proof.
  intros dir key db v H. unfold get_deal in H.
  destruct (filter (fun v => String.eqb (id (deal_of v)) key) (deals_joined dir db))
    as [|v0 rest] eqn:E; [discriminate H|].
  injection H as <-.
  assert (Hin : In v0 (filter (fun v => String.eqb (id (deal_of v)) key)
                         (deals_joined dir db))) by (rewrite E; now left).
  apply filter_In in Hin. destruct Hin as [Hin _].
  exact (proj2 (deals_joined_view dir db v0 Hin)).
Qed.

(** ** Trimmed texts *)

Lemma trimStart_no_leading : forall s, no_leading_space (Js.trimStart s).
Proof.
  induction s as [|c s IH]; simpl; [exact I|].
  destruct (Js.is_space c) eqn:E; [exact IH | exact E].
Qed.

Lemma trimStart_fixed :
  forall s, no_leading_space s -> Js.trimStart s = s.
Proof.
  intros [|c s] H; simpl in *; [reflexivity | now rewrite H].
Qed.

Lemma trimEnd_no_leading :
  forall s, no_leading_space s -> no_leading_space (Js.trimEnd s).
Proof.
  intros [|c s] H; simpl in *; [exact I|].
  destruct (Js.trimEnd s); [rewrite H|]; exact H.
Qed.

Lemma trimEnd_idem : forall s, Js.trimEnd (Js.trimEnd s) = Js.trimEnd s.
Proof.
  induction s as [|c s IH]; simpl; [reflexivity|].
  destruct (Js.trimEnd s) as [|c' r] eqn:E.
  - destruct (Js.is_space c) eqn:Ec; simpl; [reflexivity | now rewrite Ec].
  - change (Js.trimEnd (c :: c' :: r))
      with (match Js.trimEnd (c' :: r) with
            | [] => if Js.is_space c then [] else [c]
            | c0 :: r0 => c :: c0 :: r0
            end).
    now rewrite IH.
Qed.

(** Trimming twice is trimming once. *)
Lemma trim_idem : forall s, Js.trim (Js.trim s) = Js.trim s.
Proof.
  intros s. unfold Js.trim.
  rewrite (trimStart_fixed (Js.trimEnd (Js.trimStart s))).
  - apply trimEnd_idem.
  - apply trimEnd_no_leading, trimStart_no_leading.
Qed.

Lemma tidy_trim : forall s, Js.trim s <> [] -> tidy (Js.trim s).
Proof. intros s H. split; [exact H | apply trim_idem]. Qed.

Lemma tidy_description :
  forall (raw : option text) d,
    Js.or_null (option_map Js.trim raw) = Some d -> tidy d.
Proof.
  intros [raw|] d; simpl; [|discriminate].
  destruct (Js.trim raw) as [|c s] eqn:E; [discriminate|].
  intros [= <-]. rewrite <- E. apply tidy_trim. rewrite E. discriminate.
Qed.

Lemma title_of_tidy : forall body t, title_of body t -> tidy t.
Proof.
  intros body t [raw [_ H]]. pose proof (trimmed_of_trim raw t H) as [Ht _].
  destruct H as [_ [_ [_ [_ [_ [Hne _]]]]]].
  rewrite <- Ht. apply tidy_trim. now rewrite Ht.
Qed.

(** ** The shape of the three writes *)

Section Shapes.

Variable probability_of : deal_status -> Q.

(** POST /deals either fails and leaves the table, or appends one row. *)
Lemma post_shape :
  forall new_id now body db,
    (exists code e,
       post_deals probability_of new_id now body db = (Fail code e, db))
    \/ exists t d st a c co u e,
         tidy t
         /\ (forall x, d = Some x -> tidy x)
         /\ post_deals probability_of new_id now body db
            = (Reply 201 (fst (INSERT_deal probability_of new_id now t d st a c co u e db)),
               snd (INSERT_deal probability_of new_id now t d st a c co u e db)).
Proof.
  intros new_id now body db.
  destruct (title_blank_or_of body) as [Hb | [t Ht]].
  - left. exists 400, "Titre requis". now apply post_blank.
  - destruct (status_rejected_or_of body) as [Hr | [st Hst]].
    + left. exists 400, "Statut invalide". now apply (post_rejected _ _ _ _ _ t).
    + right. do 8 eexists. split; [|split; [|apply (post_valid _ _ _ _ _ t st Ht Hst)]].
      * now apply (title_of_tidy body).
      * intros x. apply tidy_description.
Qed.

(** PUT /deals/:id either fails before the UPDATE and leaves the table, or
    runs the UPDATE with a trimmed title and description. *)
Lemma put_shape :
  forall now key body db,
    (exists code e,
       put_deal probability_of now key body db = (Fail code e, db))
    \/ exists t d st a c co u e,
         tidy t
         /\ (forall x, d = Some x -> tidy x)
         /\ put_deal probability_of now key body db
            = (match fst (UPDATE_where_id probability_of now
                            (set_all now t d st a c co u e) key db) with
               | [] => NotFound
               | row :: _ => Reply 200 row
               end,
               snd (UPDATE_where_id probability_of now
                      (set_all now t d st a c co u e) key db)).
Proof.
  intros now key body db.
  destruct (title_blank_or_of body) as [Hb | [t Ht]].
  - left. exists 400, "Titre requis". apply title_blank_match in Hb.
    unfold put_deal. destruct Hb as [-> | ->]; reflexivity.
  - destruct (status_rejected_or_of body) as [Hr | [st Hst]].
    + left. exists 400, "Statut invalide".
      destruct (title_of_match body t Ht) as [c [s [-> Hm]]].
      destruct Hr as [s0 [Hs [Hne Hout]]].
      unfold put_deal. rewrite Hm, Hs.
      assert (Js.truthy (Some s0) = true) as -> by (now destruct s0).
      destruct (Js.includes ALLOWED_STATUSES (Some s0)) eqn:E; [|reflexivity].
      apply includes_allowed_In in E. contradiction.
    + right. do 8 eexists.
      split; [|split; [|apply (put_valid probability_of now key body db t st Ht Hst)]].
      * now apply (title_of_tidy body).
      * intros x. apply tidy_description.
Qed.

(** PATCH /deals/:id/status either fails on the status and leaves the table,
    or runs the UPDATE. *)
Lemma patch_shape :
  forall now key status db,
    patch_deal_status probability_of now key status db = (InvalidStatus, db)
    \/ exists st,
         status = Some (status_text st)
         /\ patch_deal_status probability_of now key status db
            = (match fst (UPDATE_where_id probability_of now
                            (set_status now st) key db) with
               | [] => NotFound
               | row :: _ => Reply 200 row
               end,
               snd (UPDATE_where_id probability_of now (set_status now st) key db)).
Proof.
  intros now key status db.
  destruct (Js.includes ALLOWED_STATUSES status) eqn:E.
  - right. destruct status as [s|]; [|discriminate E].
    apply includes_allowed_text in E. destruct E as [st ->].
    exists st. split; [reflexivity | apply patch_valid].
  - left. unfold patch_deal_status. now rewrite E.
Qed.

(** *** The UPDATE with an assignment that keeps the id *)

Lemma update_ids :
  forall now set key db,
    (forall r, id (set r) = id r) ->
    map id (snd (UPDATE_where_id probability_of now set key db)) = map id db.
Proof.
  intros now set key db Hid. unfold UPDATE_where_id. cbn [snd].
  induction db as [|r db IH]; simpl; [reflexivity|]. rewrite IH. f_equal.
  destruct (String.eqb (id r) key); [simpl; apply Hid | reflexivity].
Qed.

Lemma update_created :
  forall now set key db,
    (forall r, created_at (set r) = created_at r) ->
    map created_at (snd (UPDATE_where_id probability_of now set key db))
    = map created_at db.
Proof.
  intros now set key db Hc. unfold UPDATE_where_id. cbn [snd].
  induction db as [|r db IH]; simpl; [reflexivity|]. rewrite IH. f_equal.
  destruct (String.eqb (id r) key); [simpl; apply Hc | reflexivity].
Qed.

Lemma update_none_iff :
  forall now set key db,
    fst (UPDATE_where_id probability_of now set key db) = [] <-> absent key db.
Proof.
  intros now set key db. split.
  - intros H r Hr Hid.
    destruct (update_rows_cons probability_of now set key db
                (ex_intro _ r (conj Hr Hid))) as [r0 [rows [_ [_ E]]]].
    rewrite H in E. discriminate E.
  - intros H. now rewrite (update_rows_nil probability_of now set key db H).
Qed.

Lemma update_returning_id :
  forall now set key db row,
    (forall r, id (set r) = id r) ->
    In row (fst (UPDATE_where_id probability_of now set key db)) ->
    id row = key.
Proof.
  intros now set key db row Hid H. unfold UPDATE_where_id in H. cbn [fst] in H.
  apply in_map_iff in H. destruct H as [r [<- Hr]].
  apply filter_In in Hr. destruct Hr as [_ E]. apply String.eqb_eq in E.
  simpl. now rewrite Hid.
Qed.

Lemma update_Forall :
  forall (I : deal -> Prop) now set key db,
    (forall r, I r -> I (maintained probability_of now (set r))) ->
    Forall I db ->
    Forall I (snd (UPDATE_where_id probability_of now set key db)).
Proof.
  intros I now set key db Hset H. unfold UPDATE_where_id. cbn [snd].
  induction H as [|r db Hr H IH]; simpl; constructor; [|exact IH].
  destruct (String.eqb (id r) key); [now apply Hset | exact Hr].
Qed.

End Shapes.

(** ** DELETE /deals/:id *)

Lemma delete_snd :
  forall key db,
    snd (delete_deal key db)
    = filter (fun r => negb (String.eqb (id r) key)) db.
Proof.
  intros key db. unfold delete_deal.
  now destruct (filter (fun r => String.eqb (id r) key) db).
Qed.

Lemma filter_absent :
  forall key db,
    absent key db -> filter (fun r => negb (String.eqb (id r) key)) db = db.
Proof.
  intros key db H. induction db as [|r db IH]; simpl; [reflexivity|].
  assert (String.eqb (id r) key = false) as ->.
  { apply String.eqb_neq. apply H. now left. }
  simpl. f_equal. apply IH. intros r' Hr'. apply H. now right.
Qed.

Lemma delete_absent_iff :
  forall key db, fst (delete_deal key db) = NotFound <-> absent key db.
Proof.
  intros key db. unfold delete_deal.
  destruct (filter (fun r => String.eqb (id r) key) db) as [|r0 rest] eqn:E; simpl.
  - split; [|reflexivity]. intros _ r Hr Hid.
    assert (In r (filter (fun r => String.eqb (id r) key) db)) as Hin.
    { apply filter_In. split; [exact Hr|]. rewrite Hid. apply String.eqb_refl. }
    rewrite E in Hin. destruct Hin.
  - split; [discriminate|]. intros H.
    assert (In r0 (filter (fun r => String.eqb (id r) key) db)) as Hin
        by (rewrite E; now left).
    apply filter_In in Hin. destruct Hin as [Hin Hid].
    apply String.eqb_eq in Hid. elim (H r0 Hin Hid).
Qed.

Lemma absent_after_delete :
  forall key db, absent key (snd (delete_deal key db)).
Proof.
  intros key db r Hr. rewrite delete_snd in Hr. apply filter_In in Hr.
  destruct Hr as [_ H]. apply negb_true_iff in H. now apply String.eqb_neq.
Qed.

Lemma delete_fst_cases :
  forall key db,
    fst (delete_deal key db) = NotFound
    \/ fst (delete_deal key db) = Reply 200 true.
Proof.
  intros key db. unfold delete_deal.
  destruct (filter (fun r => String.eqb (id r) key) db); [now left | now right].
Qed.

(** Deleting fails with NotFound exactly when no deal has the id, and then
    leaves the table as it was; otherwise it answers ok.  Afterwards no deal
    has the id, every other deal is still there, reading the id fails with
    NotFound and so does deleting it again. *)
Theorem delete_outcomes :
  forall dir key db,
    (fst (delete_deal key db) = NotFound <-> absent key db)
    /\ (absent key db -> snd (delete_deal key db) = db)
    /\ (fst (delete_deal key db) = NotFound
        \/ fst (delete_deal key db) = Reply 200 true)
    /\ absent key (snd (delete_deal key db))
    /\ (forall r, In r (snd (delete_deal key db)) <-> In r db /\ id r <> key)
    /\ get_deal dir key (snd (delete_deal key db)) = NotFound
    /\ delete_deal key (snd (delete_deal key db))
       = (NotFound, snd (delete_deal key db)).
Proof.
  intros dir key db.
  split; [apply delete_absent_iff|].
  split; [intros H; rewrite delete_snd; now apply filter_absent|].
  split; [apply delete_fst_cases|].
  split; [apply absent_after_delete|].
  split.
  { intros r. rewrite delete_snd, filter_In, negb_true_iff, String.eqb_neq.
    reflexivity. }
  split.
  { apply (proj1 (get_deal_cases dir key _)), absent_after_delete. }
  pose proof (absent_after_delete key db) as Habs.
  rewrite (surjective_pairing (delete_deal key (snd (delete_deal key db)))).
  f_equal.
  - now apply delete_absent_iff.
  - rewrite delete_snd at 1. now apply filter_absent.
Qed.

(** ** Writes, one after the other *)

Section StoreFacts.

Variable probability_of : deal_status -> Q.

(** POST /deals either fails and leaves the table, or appends the row it
    returns, which carries the new id. *)
Lemma post_cases :
  forall new_id now body db,
    (exists code e,
       post_deals probability_of new_id now body db = (Fail code e, db))
    \/ exists row,
         post_deals probability_of new_id now body db
         = (Reply 201 row, (db ++ [row])%list)
         /\ id row = new_id.
Proof.
  intros new_id now body db.
  destruct (post_shape probability_of new_id now body db)
    as [H | [t [d [st [a [c [co [u [e [_ [_ H]]]]]]]]]]]; [now left|].
  right. eexists. split; [exact H | reflexivity].
Qed.

(** A deal created under a fresh id and deleted again leaves the table
    exactly as it was, whether or not the creation was accepted. *)
Theorem create_then_delete :
  forall new_id now body db,
    absent new_id db ->
    snd (delete_deal new_id (snd (post_deals probability_of new_id now body db)))
    = db.
Proof.
  intros new_id now body db Habs. rewrite delete_snd.
  destruct (post_cases new_id now body db)
    as [[code [e ->]] | [row [-> Hid]]]; cbn [snd].
  - now apply filter_absent.
  - rewrite filter_app. simpl. rewrite Hid, String.eqb_refl. simpl.
    rewrite app_nil_r. now apply filter_absent.
Qed.

(** A deal created under a fresh id can be read back by that id, and reads
    as the record the creation returned. *)
Theorem create_then_get :
  forall dir new_id now body db row db',
    absent new_id db ->
    post_deals probability_of new_id now body db = (Reply 201 row, db') ->
    exists v, get_deal dir new_id db' = Reply 200 v /\ deal_of v = row.
Proof.
  intros dir new_id now body db row db' Habs Hpost.
  destruct (post_cases new_id now body db)
    as [[code [e H]] | [row0 [H Hid]]];
    rewrite H in Hpost; [discriminate Hpost|].
  injection Hpost as -> <-.
  destruct (get_deal_cases dir new_id (db ++ [row])%list) as [_ [Hget Hor]].
  destruct Hor as [Hno | [v Hv]].
  - exfalso. apply (Hno row); [|exact Hid].
    apply in_or_app. right. now left.
  - exists v. split; [exact Hv|].
    destruct (Hget v Hv) as [Hin Hvid].
    apply in_app_or in Hin. destruct Hin as [Hin | [E | []]]; [|now symmetry].
    elim (Habs _ Hin Hvid).
Qed.

Lemma unique_by_id :
  forall db a b,
    NoDup (ids db) -> In a db -> In b db -> id a = id b -> a = b.
Proof.
  unfold ids. induction db as [|x db IH]; intros a b Hnd Ha Hb E; [destruct Ha|].
  simpl in Hnd. inversion Hnd as [|? ? Hnotin Hnd']; subst.
  destruct Ha as [-> | Ha], Hb as [-> | Hb].
  - reflexivity.
  - exfalso. apply Hnotin. rewrite E. now apply in_map.
  - exfalso. apply Hnotin. rewrite <- E. now apply in_map.
  - now apply IH.
Qed.

Lemma set_all_id :
  forall now t d st a c co u e r, id (set_all now t d st a c co u e r) = id r.
Proof. reflexivity. Qed.

Lemma set_status_id : forall now st r, id (set_status now st r) = id r.
Proof. reflexivity. Qed.

Lemma update_rows_kept :
  forall now key body status db,
    ids (snd (put_deal probability_of now key body db)) = ids db
    /\ map created_at (snd (put_deal probability_of now key body db))
       = map created_at db
    /\ ids (snd (patch_deal_status probability_of now key status db)) = ids db
    /\ map created_at (snd (patch_deal_status probability_of now key status db))
       = map created_at db.
Proof.
  intros now key body status db. unfold ids.
  destruct (put_shape probability_of now key body db)
    as [[code [e ->]] | [t [d [st [a [c [co [u [e [_ [_ ->]]]]]]]]]]];
    destruct (patch_shape probability_of now key status db)
      as [-> | [st' [_ ->]]]; cbn [snd];
    repeat split; try reflexivity;
    try (apply update_ids; reflexivity);
    try (apply update_created; reflexivity).
Qed.

Lemma update_others :
  forall now set key db,
    (forall r, id (set r) = id r) ->
    others key (snd (UPDATE_where_id probability_of now set key db))
    = others key db.
Proof.
  intros now set key db Hid. unfold others, UPDATE_where_id. cbn [snd].
  induction db as [|r db IH]; simpl; [reflexivity|].
  destruct (String.eqb (id r) key) eqn:E.
  - cbn [maintained id]. rewrite Hid, E. exact IH.
  - rewrite E. simpl. now rewrite IH.
Qed.

Lemma update_others_kept :
  forall now key body status db,
    others key (snd (put_deal probability_of now key body db)) = others key db
    /\ others key (snd (patch_deal_status probability_of now key status db))
       = others key db.
Proof.
  intros now key body status db.
  destruct (put_shape probability_of now key body db)
    as [[code [e ->]] | [t [d [st [a [c [co [u [e [_ [_ ->]]]]]]]]]]];
    destruct (patch_shape probability_of now key status db)
      as [-> | [st' [_ ->]]]; cbn [snd];
    split; try reflexivity; apply update_others; reflexivity.
Qed.

(** An update never adds or removes a deal, never changes an id or a
    creation time, and never touches a deal with another id: after a full
    update or a status transition of the deal [key], accepted or not, the
    table holds the same deals as before, counted with repetition and
    identified by id and creation time, and the deals whose id is not
    [key] are the same rows as before.  Nothing is said of the order of the
    rows. *)
Theorem update_keeps_rows :
  forall now key body status db,
    Permutation
      (map (fun r => (id r, created_at r))
         (snd (put_deal probability_of now key body db)))
      (map (fun r => (id r, created_at r)) db)
    /\ Permutation (others key (snd (put_deal probability_of now key body db)))
         (others key db)
    /\ Permutation
         (map (fun r => (id r, created_at r))
            (snd (patch_deal_status probability_of now key status db)))
         (map (fun r => (id r, created_at r)) db)
    /\ Permutation
         (others key (snd (patch_deal_status probability_of now key status db)))
         (others key db).
Proof.
  intros now key body status db.
  destruct (update_others_kept now key body status db) as [Ho1 Ho2].
  assert (Hpairs :
            forall l l' : list deal,
              map id l' = map id l ->
              map created_at l' = map created_at l ->
              map (fun r => (id r, created_at r)) l'
              = map (fun r => (id r, created_at r)) l).
  { intros l. induction l as [|r l IH]; intros [|r' l'] H1 H2;
      try discriminate; [reflexivity|].
    simpl in *. injection H1 as E1 H1. injection H2 as E2 H2.
    rewrite E1, E2. f_equal. now apply IH. }
  destruct (update_rows_kept now key body status db) as [H1 [H2 [H3 H4]]].
  split; [|split; [|split]].
  - rewrite (Hpairs db _ H1 H2). apply Permutation_refl.
  - rewrite Ho1. apply Permutation_refl.
  - rewrite (Hpairs db _ H3 H4). apply Permutation_refl.
  - rewrite Ho2. apply Permutation_refl.
Qed.

(** Unique ids stay unique under every write, provided a creation is given
    an id no deal has yet. *)
Theorem writes_keep_ids_unique :
  forall new_id now key body status db,
    NoDup (ids db) ->
    (absent new_id db ->
     NoDup (ids (snd (post_deals probability_of new_id now body db))))
    /\ NoDup (ids (snd (put_deal probability_of now key body db)))
    /\ NoDup (ids (snd (patch_deal_status probability_of now key status db)))
    /\ NoDup (ids (snd (delete_deal key db))).
Proof.
  intros new_id now key body status db Hnd.
  destruct (update_rows_kept now key body status db) as [Hput [_ [Hpatch _]]].
  split; [|split; [now rewrite Hput | split; [now rewrite Hpatch|]]].
  - intros Habs.
    destruct (post_cases new_id now body db)
      as [[code [e ->]] | [row [-> Hid]]]; cbn [snd]; [exact Hnd|].
    unfold ids. rewrite map_app. simpl. rewrite Hid.
    apply Permutation_NoDup with (l := new_id :: map id db).
    + apply Permutation_cons_append.
    + constructor; [|exact Hnd]. intros Hin. apply in_map_iff in Hin.
      destruct Hin as [r [Hrid Hr]]. elim (Habs r Hr Hrid).
  - rewrite delete_snd. unfold ids in *. clear - Hnd.
    induction db as [|r db IH]; simpl; [constructor|].
    inversion Hnd as [|? ? Hnotin Hnd']; subst.
    destruct (String.eqb (id r) key); simpl; [now apply IH|].
    constructor; [|now apply IH].
    intros Hin. apply Hnotin. apply in_map_iff in Hin.
    destruct Hin as [x [E Hx]]. apply filter_In in Hx. rewrite <- E.
    apply in_map. apply Hx.
Qed.

(** With unique ids, the record an accepted update or transition returns is
    the one a read of that id returns afterwards. *)
Theorem update_then_get :
  forall dir now key body status db,
    NoDup (ids db) ->
    (forall row,
       fst (put_deal probability_of now key body db) = Reply 200 row ->
       exists v,
         get_deal dir key (snd (put_deal probability_of now key body db))
         = Reply 200 v
         /\ deal_of v = row)
    /\ (forall row,
          fst (patch_deal_status probability_of now key status db) = Reply 200 row ->
          exists v,
            get_deal dir key
              (snd (patch_deal_status probability_of now key status db))
            = Reply 200 v
            /\ deal_of v = row).
Proof.
  intros dir now key body status db Hnd.
  assert (Hgen :
            forall set,
              (forall r, id (set r) = id r) ->
              forall row,
                match fst (UPDATE_where_id probability_of now set key db) with
                | [] => NotFound
                | row :: _ => Reply 200 row
                end = Reply 200 row ->
                exists v,
                  get_deal dir key (snd (UPDATE_where_id probability_of now set key db))
                  = Reply 200 v
                  /\ deal_of v = row).
  { intros set Hset row Hrow.
    destruct (fst (UPDATE_where_id probability_of now set key db))
      as [|row0 rest] eqn:E; [discriminate Hrow|].
    injection Hrow as ->.
    assert (Hin : In row (fst (UPDATE_where_id probability_of now set key db)))
      by (rewrite E; now left).
    pose proof (update_returning_id probability_of now set key db row Hset Hin) as Hid.
    apply update_returning_In in Hin.
    set (db' := snd (UPDATE_where_id probability_of now set key db)) in *.
    assert (Hnd' : NoDup (ids db')).
    { unfold ids, db'. rewrite update_ids by exact Hset. exact Hnd. }
    destruct (get_deal_cases dir key db') as [_ [Hget Hor]].
    destruct Hor as [Hno | [v Hv]]; [elim (Hno row Hin Hid)|].
    exists v. split; [exact Hv|].
    destruct (Hget v Hv) as [Hvin Hvid].
    apply (unique_by_id db'); try assumption. congruence. }
  split; intros row Hrow.
  - destruct (put_shape probability_of now key body db)
      as [[code [e H]] | [t [d [st [a [c [co [u [e [_ [_ H]]]]]]]]]]];
      rewrite H in Hrow |- *; cbn [fst snd] in *; [discriminate Hrow|].
    apply Hgen; [reflexivity | exact Hrow].
  - destruct (patch_shape probability_of now key status db) as [H | [st [_ H]]];
      rewrite H in Hrow |- *; cbn [fst snd] in *; [discriminate Hrow|].
    apply Hgen; [reflexivity | exact Hrow].
Qed.

(** A write that answers with a failure changes nothing: whenever create,
    update, transition or delete responds with an error, the table is the
    one before the request. *)
Theorem failed_write_leaves_table :
  forall new_id now key body status db,
    (forall code e,
       fst (post_deals probability_of new_id now body db) = Fail code e ->
       snd (post_deals probability_of new_id now body db) = db)
    /\ (forall code e,
          fst (put_deal probability_of now key body db) = Fail code e ->
          snd (put_deal probability_of now key body db) = db)
    /\ (forall code e,
          fst (patch_deal_status probability_of now key status db) = Fail code e ->
          snd (patch_deal_status probability_of now key status db) = db)
    /\ (forall code e,
          fst (delete_deal key db) = Fail code e ->
          snd (delete_deal key db) = db).
Proof.
  intros new_id now key body status db.
  assert (Hgen :
            forall set code e,
              match fst (UPDATE_where_id probability_of now set key db) with
              | [] => NotFound
              | row :: _ => Reply 200 row
              end = Fail code e ->
              snd (UPDATE_where_id probability_of now set key db) = db).
  { intros set code e H.
    destruct (fst (UPDATE_where_id probability_of now set key db)) eqn:E;
      [|discriminate H].
    apply update_none_iff in E. now rewrite update_rows_nil. }
  split; [|split; [|split]]; intros code e H.
  - destruct (post_shape probability_of new_id now body db)
      as [[code' [e' H']] | [t [d [st [a [c [co [u [e' [_ [_ H']]]]]]]]]]];
      rewrite H' in H |- *; [reflexivity | discriminate H].
  - destruct (put_shape probability_of now key body db)
      as [[code' [e' H']] | [t [d [st [a [c [co [u [e' [_ [_ H']]]]]]]]]]];
      rewrite H' in H |- *; cbn [fst snd] in *; [reflexivity|].
    now apply (Hgen _ code e).
  - destruct (patch_shape probability_of now key status db) as [H' | [st [_ H']]];
      rewrite H' in H |- *; cbn [fst snd] in *; [reflexivity|].
    now apply (Hgen _ code e).
  - rewrite delete_snd. apply filter_absent, delete_absent_iff.
    destruct (delete_fst_cases key db) as [Hor | Hor]; [exact Hor|].
    rewrite Hor in H. discriminate H.
Qed.

End StoreFacts.

(** ** Invariants of the tables the handlers produce *)

Section Invariants.

Variable probability_of : deal_status -> Q.

Lemma filter_Forall :
  forall (I : deal -> Prop) (p : deal -> bool) db,
    Forall I db -> Forall I (filter p db).
Proof.
  intros I p db H. rewrite Forall_forall in H |- *. intros r Hr.
  apply filter_In in Hr. now apply H.
Qed.

(** A property of rows holds on every reachable table when each of the
    three writes establishes or keeps it on the rows it writes. *)
Lemma reachable_rows :
  forall I : deal -> Prop,
    (forall new_id now t d st a c co u e db,
       tidy t -> (forall x, d = Some x -> tidy x) ->
       I (fst (INSERT_deal probability_of new_id now t d st a c co u e db))) ->
    (forall now t d st a c co u e r,
       tidy t -> (forall x, d = Some x -> tidy x) -> I r ->
       I (maintained probability_of now (set_all now t d st a c co u e r))) ->
    (forall now st r,
       I r -> I (maintained probability_of now (set_status now st r))) ->
    forall db, reachable probability_of db -> Forall I db.
Proof.
  intros I Hpost Hput Hpatch db H. induction H as
    [|db new_id now body H IH|db now key body H IH|db now key status H IH|db key H IH].
  - constructor.
  - destruct (post_shape probability_of new_id now body db)
      as [[code [e ->]] | [t [d [st [a [c [co [u [e [Ht [Hd ->]]]]]]]]]]];
      cbn [snd]; [exact IH|].
    unfold INSERT_deal at 1. cbn [snd]. apply Forall_app. split; [exact IH|].
    constructor; [|constructor].
    exact (Hpost new_id now t d st a c co u e db Ht Hd).
  - destruct (put_shape probability_of now key body db)
      as [[code [e ->]] | [t [d [st [a [c [co [u [e [Ht [Hd ->]]]]]]]]]]];
      cbn [snd]; [exact IH|].
    apply update_Forall; [|exact IH]. intros r Hr. now apply Hput.
  - destruct (patch_shape probability_of now key status db) as [-> | [st [_ ->]]];
      cbn [snd]; [exact IH|].
    apply update_Forall; [|exact IH]. intros r Hr. now apply Hpatch.
  - rewrite delete_snd. now apply filter_Forall.
Qed.

(** A deal that is not at gagne or perdu never carries a closing time: in
    every table the handlers can produce, a non-null [closed_at] implies a
    closed status. *)
Theorem open_deal_has_no_closing_time :
  forall db,
    reachable probability_of db ->
    forall r, In r db ->
      closed_at r <> None -> status r = gagne \/ status r = perdu.
Proof.
  intros db H.
  apply (proj1 (Forall_forall
                  (fun r => closed_at r <> None -> status r = gagne \/ status r = perdu)
                  db)).
  apply (reachable_rows
           (fun r => closed_at r <> None -> status r = gagne \/ status r = perdu));
    [| | |exact H].
  - intros. simpl in *. congruence.
  - intros now t d st a c co u e r _ _ _. simpl. apply closed_at_for_iff.
  - intros now st r _. simpl. apply closed_at_for_iff.
Qed.

(** Stored texts are clean: in every table the handlers can produce, each
    title is non-empty and has no leading or trailing white space, and so
    has each description that is not null. *)
Theorem stored_texts_trimmed :
  forall db,
    reachable probability_of db ->
    forall r, In r db ->
      tidy (title r) /\ forall x, description r = Some x -> tidy x.
Proof.
  intros db H.
  apply (proj1 (Forall_forall
                  (fun r => tidy (title r)
                            /\ forall x, description r = Some x -> tidy x)
                  db)).
  apply (reachable_rows
           (fun r => tidy (title r) /\ forall x, description r = Some x -> tidy x));
    [| | |exact H].
  - intros new_id now t d st a c co u e db0 Ht Hd. simpl. now split.
  - intros now t d st a c co u e r Ht Hd _. simpl. now split.
  - intros now st r Hr. simpl. exact Hr.
Qed.

(** *** The last write wins *)

Lemma update_update :
  forall now1 now2 set1 set2 key db,
    (forall r, id (set1 r) = id r) ->
    (forall r,
       maintained probability_of now2
         (set2 (maintained probability_of now1 (set1 r)))
       = maintained probability_of now2 (set2 r)) ->
    snd (UPDATE_where_id probability_of now2 set2 key
           (snd (UPDATE_where_id probability_of now1 set1 key db)))
    = snd (UPDATE_where_id probability_of now2 set2 key db).
Proof.
  intros now1 now2 set1 set2 key db Hid Hset. unfold UPDATE_where_id.
  cbn [snd]. rewrite map_map. apply map_ext. intros r.
  destruct (String.eqb (id r) key) eqn:E.
  - cbn [maintained id]. rewrite Hid, E. apply Hset.
  - now rewrite E.
Qed.

(** An accepted update fixes the stored deals whatever update or transition
    was sent to the same id just before, and of two successive transitions
    of a deal only the second shows. *)
Theorem last_write_wins :
  forall now1 now2 key body1 status1 body2 t st st2 db,
    title_of body2 t ->
    status_of body2 st ->
    snd (put_deal probability_of now2 key body2
           (snd (put_deal probability_of now1 key body1 db)))
    = snd (put_deal probability_of now2 key body2 db)
    /\ snd (put_deal probability_of now2 key body2
              (snd (patch_deal_status probability_of now1 key status1 db)))
       = snd (put_deal probability_of now2 key body2 db)
    /\ snd (patch_deal_status probability_of now2 key (Some (status_text st2))
              (snd (patch_deal_status probability_of now1 key status1 db)))
       = snd (patch_deal_status probability_of now2 key (Some (status_text st2)) db).
Proof.
  intros now1 now2 key body1 status1 body2 t st st2 db Ht Hst.
  rewrite !(put_valid probability_of now2 key body2 _ t st Ht Hst).
  rewrite !patch_valid. cbn [snd].
  destruct (put_shape probability_of now1 key body1 db)
    as [[code [e ->]] | [t1 [d1 [s1 [a1 [c1 [co1 [u1 [e1 [_ [_ ->]]]]]]]]]]];
    destruct (patch_shape probability_of now1 key status1 db)
      as [-> | [st1 [_ ->]]]; cbn [snd];
    repeat split; try reflexivity;
      apply update_update; reflexivity.
Qed.

End Invariants.

(** ** The two views of GET /deals/stats *)

Lemma sum_Z_perm :
  forall l l', Permutation l l' -> sum_Z l = sum_Z l'.
Proof.
  intros l l' H. induction H; simpl; lia.
Qed.

Lemma sum_Q_perm :
  forall l l', Permutation l l' -> (sum_Q l == sum_Q l')%Q.
Proof.
  intros l l' H. induction H; simpl.
  - reflexivity.
  - now rewrite IHPermutation.
  - ring.
  - now rewrite IHPermutation1.
Qed.

Lemma sum_Q_ext :
  forall {A : Type} (f g : A -> Q) (l : list A),
    (forall x, (f x == g x)%Q) ->
    (sum_Q (map f l) == sum_Q (map g l))%Q.
Proof.
  intros A f g l H. induction l as [|x l IH]; simpl; [reflexivity|].
  now rewrite H, IH.
Qed.

Lemma sum_Z_add :
  forall {A : Type} (f g : A -> Z) (l : list A),
    sum_Z (map (fun x => f x + g x) l) = sum_Z (map f l) + sum_Z (map g l).
Proof.
  intros A f g l. induction l as [|x l IH]; simpl; lia.
Qed.

Lemma sum_Q_add :
  forall {A : Type} (f g : A -> Q) (l : list A),
    (sum_Q (map (fun x => f x + g x) l) == sum_Q (map f l) + sum_Q (map g l))%Q.
Proof.
  intros A f g l. induction l as [|x l IH]; simpl; [ring|]. rewrite IH. ring.
Qed.

(** Over statuses without repetition, exactly one equals a given member. *)
Lemma sum_Z_indicator :
  forall (x : deal_status) (v : Z) keys,
    NoDup keys -> In x keys ->
    sum_Z (map (fun s => if deal_status_eqb x s then v else 0) keys) = v.
Proof.
  intros x v keys Hnd. induction Hnd as [|k keys Hnotin Hnd IH]; intros Hin;
    [destruct Hin|].
  simpl. destruct (deal_status_eqb x k) eqn:E.
  - apply deal_status_eqb_eq in E. subst k.
    assert (sum_Z (map (fun s => if deal_status_eqb x s then v else 0) keys) = 0)
      as ->; [|lia].
    clear IH Hin Hnd. induction keys as [|k keys IHk]; simpl; [reflexivity|].
    destruct (deal_status_eqb x k) eqn:Ek.
    + apply deal_status_eqb_eq in Ek. subst k. exfalso. apply Hnotin. now left.
    + rewrite IHk; [reflexivity|]. intros H. apply Hnotin. now right.
  - destruct Hin as [-> | Hin];
      [rewrite deal_status_eqb_refl in E; discriminate E|].
    rewrite IH by exact Hin. lia.
Qed.

Lemma sum_Q_indicator :
  forall (x : deal_status) (v : Q) keys,
    NoDup keys -> In x keys ->
    (sum_Q (map (fun s => if deal_status_eqb x s then v else 0) keys) == v)%Q.
Proof.
  intros x v keys Hnd. induction Hnd as [|k keys Hnotin Hnd IH]; intros Hin;
    [destruct Hin|].
  simpl. destruct (deal_status_eqb x k) eqn:E.
  - apply deal_status_eqb_eq in E. subst k.
    assert (sum_Q (map (fun s => if deal_status_eqb x s then v else 0) keys) == 0)%Q
      as ->; [|ring].
    clear IH Hin Hnd. induction keys as [|k keys IHk]; simpl; [reflexivity|].
    destruct (deal_status_eqb x k) eqn:Ek.
    + apply deal_status_eqb_eq in Ek. subst k. exfalso. apply Hnotin. now left.
    + rewrite IHk; [ring|]. intros H. apply Hnotin. now right.
  - destruct Hin as [-> | Hin];
      [rewrite deal_status_eqb_refl in E; discriminate E|].
    rewrite IH by exact Hin. ring.
Qed.

(** Grouping by status splits the table: counts and amounts over the groups
    add up to those of the table. *)
Lemma groups_partition :
  forall keys db,
    NoDup keys ->
    (forall r, In r db -> In (status r) keys) ->
    sum_Z (map (fun s => Z.of_nat (List.length (at_stage s db))) keys)
    = Z.of_nat (List.length db)
    /\ (sum_Q (map (fun s => sum_Q (map amount (at_stage s db))) keys)
        == sum_Q (map amount db))%Q.
Proof.
  intros keys db Hnd. induction db as [|r db IH]; intros Hcover.
  - simpl. split.
    + clear. induction keys as [|k keys IHk]; simpl; [reflexivity | exact IHk].
    + clear. induction keys as [|k keys IHk]; simpl; [reflexivity|].
      rewrite IHk. ring.
  - destruct IH as [IHz IHq]; [intros r' Hr'; apply Hcover; now right|].
    assert (Hr : In (status r) keys) by (apply Hcover; now left).
    split.
    + rewrite (map_ext
                 (fun s => Z.of_nat (List.length (at_stage s (r :: db))))
                 (fun s => (if deal_status_eqb (status r) s then 1 else 0)
                           + Z.of_nat (List.length (at_stage s db)))).
      * rewrite sum_Z_add, IHz, sum_Z_indicator by assumption.
        cbn [List.length]. lia.
      * intros s. unfold at_stage. cbn [filter].
        destruct (deal_status_eqb (status r) s); cbn [List.length]; lia.
    + rewrite (sum_Q_ext
                 (fun s => sum_Q (map amount (at_stage s (r :: db))))
                 (fun s => (if deal_status_eqb (status r) s then amount r else 0)
                           + sum_Q (map amount (at_stage s db)))%Q).
      * rewrite sum_Q_add, IHq, sum_Q_indicator by assumption.
        simpl. reflexivity.
      * intros s. unfold at_stage. simpl.
        destruct (deal_status_eqb (status r) s); simpl; ring.
Qed.

Lemma by_status_rows_perm :
  forall db,
    Permutation (by_status_query db)
      (map
         (fun s =>
            {| stage := s;
               count := Sql.COUNT_star (at_stage s db);
               total :=
                 Sql.COALESCE
                   (Sql.SUM (map (fun r => Some (amount r)) (at_stage s db))) 0 |})
         (group_keys db [])).
Proof.
  intros db. unfold by_status_query. apply ORDER_BY_perm.
Qed.

Lemma group_keys_cover :
  forall db r, In r db -> In (status r) (group_keys db []).
Proof.
  intros db r Hr. apply (proj2 (group_keys_spec db [])).
  split; [|intros []]. apply present_iff. now exists r.
Qed.

(** The breakdown adds up to the summary: the counts of the stages sum to
    [total_deals] and their totals to [total_value]. *)
Theorem stats_breakdown_adds_up :
  forall db,
    sum_Z (map count (by_status_query db)) = total_deals (summary_query db)
    /\ (sum_Q (map total (by_status_query db))
        == total_value (summary_query db))%Q.
Proof.
  intros db.
  destruct (groups_partition (group_keys db []) db
              (proj1 (group_keys_spec db [])) (group_keys_cover db)) as [Hz Hq].
  pose proof (by_status_rows_perm db) as Hp. split.
  - rewrite (sum_Z_perm _ _ (Permutation_map count Hp)), map_map.
    cbn [count]. unfold Sql.COUNT_star. rewrite Hz. reflexivity.
  - rewrite (sum_Q_perm _ _ (Permutation_map total Hp)), map_map.
    cbn [total].
    rewrite (sum_Q_ext _ (fun s => sum_Q (map amount (at_stage s db)))).
    + rewrite Hq. unfold summary_query. cbn [total_value].
      symmetry. apply COALESCE_SUM_column.
    + intros s. apply COALESCE_SUM_column.
Qed.

Lemma length_stage_split :
  forall db,
    Z.of_nat (List.length (filter (fun r => negb (is_closed (status r))) db))
    + Z.of_nat (List.length (at_stage gagne db))
    + Z.of_nat (List.length (at_stage perdu db))
    = Z.of_nat (List.length db).
Proof.
  induction db as [|r db IH]; [reflexivity|].
  unfold at_stage in *. cbn [filter].
  destruct (status r); cbn [is_closed negb deal_status_eqb List.length] in *; lia.
Qed.

(** Every deal is active, won or lost: [active_deals] plus the deals at
    gagne plus the deals at perdu is [total_deals]. *)
Theorem stats_active_won_lost :
  forall db,
    active_deals (summary_query db)
    + Z.of_nat (List.length (at_stage gagne db))
    + Z.of_nat (List.length (at_stage perdu db))
    = total_deals (summary_query db)
    /\ 0 <= active_deals (summary_query db) <= total_deals (summary_query db).
Proof.
  intros db. unfold summary_query. cbn [active_deals total_deals].
  rewrite COUNT_case. unfold Sql.COUNT_star.
  pose proof (length_stage_split db). lia.
Qed.

Section Totals.

Variable probability_of : deal_status -> Q.

Lemma update_amounts :
  forall now set key db,
    (forall r, amount (set r) = amount r) ->
    map amount (snd (UPDATE_where_id probability_of now set key db))
    = map amount db.
Proof.
  intros now set key db Ha. unfold UPDATE_where_id. cbn [snd].
  induction db as [|r db IH]; simpl; [reflexivity|]. rewrite IH. f_equal.
  destruct (String.eqb (id r) key); [simpl; apply Ha | reflexivity].
Qed.

(** A status transition moves a deal between stages without touching the
    pipeline totals: [total_deals] and [total_value] are the same before
    and after, whatever the request. *)
Theorem transition_keeps_totals :
  forall now key status db,
    total_deals
      (summary_query (snd (patch_deal_status probability_of now key status db)))
    = total_deals (summary_query db)
    /\ total_value
         (summary_query (snd (patch_deal_status probability_of now key status db)))
       = total_value (summary_query db).
Proof.
  intros now key status db.
  destruct (patch_shape probability_of now key status db) as [-> | [st [_ ->]]];
    cbn [snd]; [split; reflexivity|].
  unfold summary_query. cbn [total_deals total_value]. split.
  - unfold Sql.COUNT_star.
    rewrite <- (length_map id
                  (snd (UPDATE_where_id probability_of now (set_status now st) key db))).
    rewrite update_ids by reflexivity. now rewrite length_map.
  - rewrite <- (map_map amount Some
                  (snd (UPDATE_where_id probability_of now (set_status now st) key db))).
    rewrite update_amounts by reflexivity. now rewrite map_map.
Qed.

End Totals.

(** ** The dashboard and GET /deals/stats *)




(** ** The pipeline page *)

Lemma stageMap_lookup :
  forall (s : summary) rows k,
    match PipelinePage.stageMap (Some (s, rows)) k with
    | Some row => In row rows /\ stage row = k
    | None => forall row, In row rows -> stage row <> k
    end.
Proof.
  intros s rows k. unfold PipelinePage.stageMap.
  induction rows as [|x rows IH] using rev_ind.
  - simpl. intros row [].
  - rewrite fold_left_app. cbn [fold_left].
    destruct (deal_status_eqb k (stage x)) eqn:E.
    + apply deal_status_eqb_eq in E. split; [|now symmetry].
      apply in_or_app. right. now left.
    + destruct (fold_left _ rows _ k) as [row|].
      * destruct IH as [Hin Hk]. split; [|exact Hk]. apply in_or_app. now left.
      * intros row Hrow. apply in_app_or in Hrow. destruct Hrow as [Hrow | [<- | []]].
        -- now apply IH.
        -- intros H. rewrite H, deal_status_eqb_refl in E. discriminate E.
Qed.

Lemma at_stage_not_present :
  forall db s, present db s = false -> at_stage s db = [].
Proof.
  intros db s H. unfold at_stage.
  destruct (filter (fun r => deal_status_eqb (status r) s) db) as [|r rest] eqn:E;
    [reflexivity|].
  assert (In r (filter (fun r => deal_status_eqb (status r) s) db)) as Hin
      by (rewrite E; now left).
  apply filter_In in Hin. destruct Hin as [Hin Hs].
  assert (present db s = true) as Hp.
  { apply present_iff. exists r. split; [exact Hin|]. now apply deal_status_eqb_eq. }
  rewrite Hp in H. discriminate H.
Qed.

(** The count the pipeline page shows for a stage, read from the statistics
    the server sends, is the number of deals at that stage, and 0 for a
    stage without deals. *)
Theorem page_stage_count_is_exact :
  forall db s,
    exists stats,
      get_deals_stats db = Reply 200 stats
      /\ PipelinePage.stage_count (PipelinePage.stageMap (Some stats)) s
         = Z.of_nat (List.length (at_stage s db)).
Proof.
  intros db s. eexists. split; [reflexivity|].
  unfold PipelinePage.stage_count.
  pose proof (stageMap_lookup (summary_query db) (by_status_query db) s) as H.
  destruct (PipelinePage.stageMap (Some (summary_query db, by_status_query db)) s)
    as [row|]; cbn [option_map Js.nullish].
  - destruct H as [Hin <-].
    apply (Permutation_in _ (by_status_rows_perm db)) in Hin.
    apply in_map_iff in Hin. destruct Hin as [s0 [<- _]]. reflexivity.
  - rewrite at_stage_not_present; [reflexivity|].
    destruct (present db s) eqn:E; [|reflexivity]. exfalso.
    assert (In s (map stage (by_status_query db))) as Hin.
    { rewrite by_status_stages. apply filter_In.
      split; [apply all_statuses_complete | exact E]. }
    apply in_map_iff in Hin. destruct Hin as [row [Hs Hrow]].
    exact (H row Hrow Hs).
Qed.

Lemma fold_max_bounds :
  forall l init,
    init <= fold_left Z.max l init
    /\ forall x, In x l -> x <= fold_left Z.max l init.
Proof.
  induction l as [|y l IH]; intros init; simpl.
  - split; [lia | intros x []].
  - destruct (IH (Z.max init y)) as [H1 H2]. split; [lia|].
    intros x [<- | Hx]; [lia | now apply H2].
Qed.

(** The width scale of the funnel is at least 1 and at least the count of
    every stage of the funnel, whatever statistics arrive; the page's guard
    for a zero scale never applies. *)
Theorem page_maxCount_bounds :
  forall stats,
    1 <= PipelinePage.maxCount (PipelinePage.stageMap stats)
    /\ PipelinePage.maxCount (PipelinePage.stageMap stats) <> 0
    /\ forall s,
         In s PipelinePage.PIPELINE_STAGES ->
         PipelinePage.stage_count (PipelinePage.stageMap stats) s
         <= PipelinePage.maxCount (PipelinePage.stageMap stats).
Proof.
  intros stats. unfold PipelinePage.maxCount.
  destruct (fold_max_bounds
              (map (PipelinePage.stage_count (PipelinePage.stageMap stats))
                 PipelinePage.PIPELINE_STAGES) 1) as [H1 H2].
  split; [exact H1|]. split; [lia|].
  intros s Hs. apply H2. now apply in_map.
Qed.

(** ** The deals page *)

Lemma grouped_fold :
  forall deals (g : deal_status -> list deal_view) k,
    fold_left
      (fun g v => fun k =>
         if deal_status_eqb k (status (deal_of v)) then (g k ++ [v])%list else g k)
      deals g k
    = (g k ++ filter (fun v => deal_status_eqb (status (deal_of v)) k) deals)%list.
Proof.
  induction deals as [|v deals IH]; intros g k; simpl.
  - now rewrite app_nil_r.
  - rewrite IH.
    assert (deal_status_eqb k (status (deal_of v))
            = deal_status_eqb (status (deal_of v)) k) as ->.
    { now destruct k, (status (deal_of v)). }
    destruct (deal_status_eqb (status (deal_of v)) k); [|reflexivity].
    now rewrite <- app_assoc.
Qed.

Lemma length_by_status :
  forall deals : list deal_view,
    sum_Z
      (map
         (fun s =>
            Z.of_nat
              (List.length
                 (filter (fun v => deal_status_eqb (status (deal_of v)) s) deals)))
         all_statuses)
    = Z.of_nat (List.length deals).
Proof.
  induction deals as [|v deals IH]; [reflexivity|].
  unfold all_statuses, sum_Z in *. cbn [map fold_right filter] in *.
  destruct (status (deal_of v)); cbn [deal_status_eqb List.length]; lia.
Qed.

(** The kanban columns split the listed deals by status: the column of a
    status holds the deals of that status in list order, and the six
    columns together hold as many deals as the list. *)
Theorem kanban_columns_partition :
  forall deals,
    (forall s,
       DealsPage.grouped deals s
       = filter (fun v => deal_status_eqb (status (deal_of v)) s) deals)
    /\ (forall s v,
          In v (DealsPage.grouped deals s) <->
          In v deals /\ status (deal_of v) = s)
    /\ sum_Z (map (fun s => Z.of_nat (List.length (DealsPage.grouped deals s)))
                all_statuses)
       = Z.of_nat (List.length deals).
Proof.
  intros deals.
  assert (Heq :
            forall s,
              DealsPage.grouped deals s
              = filter (fun v => deal_status_eqb (status (deal_of v)) s) deals).
  { intros s. unfold DealsPage.grouped. now rewrite grouped_fold. }
  split; [exact Heq|]. split.
  - intros s v. rewrite Heq, filter_In, deal_status_eqb_eq. reflexivity.
  - rewrite (map_ext _ _ (fun s => f_equal (fun l => Z.of_nat (List.length l)) (Heq s))).
    apply length_by_status.
Qed.

Lemma LEFT_JOIN_filter :
  forall {A B C : Type} (on : A -> B -> bool) (pair : A -> option B -> C)
         (p : A -> bool) (p' : C -> bool) (l : list A) (r : list B),
    (forall a ob, p' (pair a ob) = p a) ->
    Sql.LEFT_JOIN on pair (filter p l) r
    = filter p' (Sql.LEFT_JOIN on pair l r).
Proof.
  intros A B C on pair p p' l r H. unfold Sql.LEFT_JOIN.
  induction l as [|a l IH]; [reflexivity|].
  cbn [filter flat_map]. rewrite filter_app, <- IH.
  assert (Hchunk :
            forall chunk : list C,
              (forall x, In x chunk -> exists ob, x = pair a ob) ->
              filter p' chunk = if p a then chunk else []).
  { induction chunk as [|x chunk IHc]; intros Hall; simpl.
    - now destruct (p a).
    - destruct (Hall x (or_introl eq_refl)) as [ob ->]. rewrite H.
      rewrite IHc by (intros y Hy; apply Hall; now right).
      now destruct (p a). }
  rewrite Hchunk.
  - destruct (p a); [reflexivity|]. reflexivity.
  - intros x Hx. destruct (filter (on a) r) as [|b ms].
    + destruct Hx as [<- | []]. now exists None.
    + apply in_map_iff in Hx. destruct Hx as [b0 [<- _]]. now exists (Some b0).
Qed.

Lemma deals_joined_filter :
  forall dir (p : deal -> bool) db,
    deals_joined dir (filter p db)
    = filter (fun v => p (deal_of v)) (deals_joined dir db).
Proof.
  intros dir p db. unfold deals_joined.
  rewrite (LEFT_JOIN_filter _ _ p (fun x => p (fst x))) by reflexivity.
  rewrite (LEFT_JOIN_filter _ _ (fun x => p (fst x)) (fun x => p (fst (fst x))))
    by reflexivity.
  apply LEFT_JOIN_filter. intros [[r c] co] u. reflexivity.
Qed.

Lemma filter_comm :
  forall {A : Type} (p q : A -> bool) (l : list A),
    filter p (filter q l) = filter q (filter p l).
Proof.
  intros A p q l. induction l as [|x l IH]; simpl; [reflexivity|].
  destruct (p x) eqn:Px, (q x) eqn:Qx; simpl; rewrite ?Px, ?Qx, IH; reflexivity.
Qed.

(** After a delete the page drops the deal from the list it holds; the
    result is the list the server would send for the same filters. *)
Theorem onDelete_matches_reload :
  forall (toLowerCase LOWER : text -> text) dir query key db l,
    get_deals toLowerCase LOWER dir query db = Reply 200 l ->
    get_deals toLowerCase LOWER dir query (snd (delete_deal key db))
    = Reply 200 (DealsPage.onDelete_local key l).
Proof.
  intros toLowerCase LOWER dir query key db l H. unfold get_deals in *. injection H as <-.
  f_equal. unfold DealsPage.onDelete_local.
  rewrite delete_snd.
  rewrite (deals_joined_filter dir (fun r => negb (String.eqb (id r) key)) db).
  rewrite filter_comm.
  symmetry. apply (filter_ORDER_BY created_desc created_desc_total created_desc_trans).
Qed.

(** ** The form of the deals page against the server *)



(** The text [trim] leaves, when it leaves one, is the trimmed text. *)
Lemma trim_leaves :
  forall raw, Js.trim raw <> [] -> trimmed_of raw (Js.trim raw).
Proof.
  intros raw H. apply trim_trimmed_of.
  destruct (whitespace_only raw) eqn:E; [|reflexivity].
  apply trim_empty_iff in E. contradiction.
Qed.

Lemma trimmed_of_unique :
  forall raw t t', trimmed_of raw t -> trimmed_of raw t' -> t = t'.
Proof.
  intros raw t t' H H'. apply trimmed_of_trim in H. apply trimmed_of_trim in H'.
  destruct H as [<- _], H' as [<- _]. reflexivity.
Qed.

Section FormFacts.

Variable probability_of : deal_status -> Q.
Variable parseFloat : string -> option Q.



End FormFacts.

(** ** The filters of the deals page against the server *)

Lemma truthy_trim :
  forall q, Js.truthy_text (Some (Js.trim q)) = negb (whitespace_only q).
Proof.
  intros q. destruct (whitespace_only q) eqn:E.
  - apply trim_empty_iff in E. now rewrite E.
  - destruct (Js.trim q) eqn:T; [|reflexivity].
    apply trim_empty_iff in T. congruence.
Qed.

Section FilterFacts.

Variable toLowerCase : text -> text.
Variable LOWER : text -> text.

(** What the deals page lists for the state of its filters: a deal of the
    table is shown exactly when it has the selected status (a selector on
    "all", or on a value outside the enumeration, selects nothing), is
    assigned to the selected user, and its title matches the search text
    taken without its surrounding white space.  With a blank search and
    both selectors on "all", every deal is shown. *)
Theorem page_filters_reach_the_server :
  forall dir q filterStatus filterUser db,
    exists l,
      get_deals toLowerCase LOWER dir
        (DealsPage.loadDeals_query q filterStatus filterUser) db
      = Reply 200 l
      /\ (forall r,
            In r (map deal_of l) <->
            In r db
            /\ (filterStatus <> "all" -> In filterStatus ALLOWED_STATUSES ->
                status_text (status r) = filterStatus)
            /\ (filterUser <> "all" -> filterUser <> "" ->
                assigned_to r = Some filterUser)
            /\ (forall t,
                  trimmed_of q t ->
                  Sql.LIKE (LOWER (title r))
                    (Sql.PERCENT :: toLowerCase t ++ [Sql.PERCENT])%list = true))
      /\ (whitespace_only q = true -> filterStatus = "all" -> filterUser = "all" ->
          forall r, In r (map deal_of l) <-> In r db).
Proof.
  intros dir q fs fu db. eexists. split; [reflexivity|].
  assert (Hsel :
            forall r,
              selected toLowerCase LOWER (DealsPage.loadDeals_query q fs fu) r = true <->
              (fs <> "all" -> In fs ALLOWED_STATUSES -> status_text (status r) = fs)
              /\ (fu <> "all" -> fu <> "" -> assigned_to r = Some fu)
              /\ (forall t,
                    trimmed_of q t ->
                    Sql.LIKE (LOWER (title r))
                      (Sql.PERCENT :: toLowerCase t ++ [Sql.PERCENT])%list = true)).
  { intros r. rewrite selected_iff. unfold DealsPage.loadDeals_query.
    cbn [Query.status Query.assigned_to Query.q]. rewrite truthy_trim.
    apply and_iff_both; [|apply and_iff_both].
    - destruct (String.eqb fs "all") eqn:E; cbn [negb].
      + apply String.eqb_eq in E. split; [intros _ H; contradiction|].
        intros _ s H. discriminate H.
      + apply String.eqb_neq in E. split.
        * intros H _ Hin. now apply H.
        * intros H s [= <-] Hin. now apply H.
    - destruct (String.eqb fu "all") eqn:E; cbn [negb].
      + apply String.eqb_eq in E. split; [intros _ H; contradiction|].
        intros _ u H. discriminate H.
      + apply String.eqb_neq in E. split.
        * intros H _ Hne. now apply H.
        * intros H u [= <-] Hne. now apply H.
    - destruct (whitespace_only q) eqn:E; cbn [negb].
      + split; [|intros _ x H; discriminate H].
        intros _ t Ht. apply trimmed_of_trim in Ht. destruct Ht as [_ Ht].
        congruence.
      + pose proof (trim_trimmed_of q E) as Htr. split.
        * intros H t Ht. rewrite (trimmed_of_unique q t (Js.trim q) Ht Htr).
          apply H; [reflexivity|].
          intros T. apply trim_empty_iff in T. congruence.
        * intros H x [= <-] _. now apply H. }
  split.
  - intros r. rewrite (get_deals_In toLowerCase LOWER dir _ db _ eq_refl).
    fold (selected toLowerCase LOWER (DealsPage.loadDeals_query q fs fu) r).
    now rewrite Hsel.
  - intros Hq -> -> r. rewrite (get_deals_In toLowerCase LOWER dir _ db _ eq_refl).
    fold (selected toLowerCase LOWER (DealsPage.loadDeals_query q "all" "all") r).
    rewrite Hsel.
    split; [tauto|]. intros Hin. split; [exact Hin|].
    split; [intros H; now elim H|]. split; [intros H; now elim H|].
    intros t Ht. apply trimmed_of_trim in Ht. destruct Ht as [_ Ht]. congruence.
Qed.

End FilterFacts.

(** ** The further properties at the example tables *)

(** The example directory has unique keys. *)
Lemma example_directory_unique : unique_keys example_directory.
Proof.
  unfold unique_keys, example_directory. simpl.
  repeat split; repeat (constructor; [simpl; intuition discriminate|]);
    constructor.
Defined.

(** The example table has unique ids and none of them is d9. *)
Lemma example_db_ids : NoDup (ids example_db) /\ absent "d9" example_db.
Proof.
  split.
  - vm_compute. repeat (constructor; [simpl; intuition discriminate|]). constructor.
  - intros r Hr. vm_compute in Hr.
    destruct Hr as [<- | [<- | [<- | []]]]; vm_compute; intros E; discriminate E.
Defined.

(** A status filter that is not a status, on the example table. *)
Lemma list_invalid_status_ignored_witness :
  Js.includes ALLOWED_STATUSES (Some "bogus") = false
  /\ get_deals ascii_lower ascii_lower no_directory
       (Query.mk (Some "bogus") None None) example_db
     = get_deals ascii_lower ascii_lower no_directory
         (Query.mk None None None) example_db.
Proof.
  split; [reflexivity|].
  exact (list_invalid_status_ignored ascii_lower ascii_lower no_directory "bogus"
           example_db eq_refl).
Defined.

(** Listing the linked table through the example directory. *)
Lemma list_once_per_deal_witness :
  unique_keys example_directory
  /\ exists l,
       get_deals ascii_lower ascii_lower example_directory
         (Query.mk None None None) linked_db = Reply 200 l
       /\ Permutation (map deal_of l)
            (filter (selected ascii_lower ascii_lower (Query.mk None None None))
               linked_db).
Proof.
  split; [exact example_directory_unique|].
  exact (list_once_per_deal ascii_lower ascii_lower example_directory
           (Query.mk None None None) linked_db example_directory_unique).
Defined.

(** The deal d7 is linked to the contact c1 and to a user that does not
    exist. *)
Lemma get_deal_enrichment_witness :
  exists v,
    get_deal example_directory "d7" linked_db = Reply 200 v
    /\ first_name v = Some "Ada"
    /\ assigned_first_name v = None
    /\ exists c,
         joined_row Contact.id (contacts example_directory)
           (contact_id (deal_of v)) c
         /\ first_name v = column Contact.first_name c.
Proof.
  eexists. split; [vm_compute; reflexivity|].
  split; [reflexivity|]. split; [reflexivity|].
  match goal with
  | |- context [contact_id (deal_of ?v)] =>
      destruct (get_deal_enrichment example_directory "d7" linked_db v eq_refl)
        as [c [co [u [Hc [_ [_ [Hf _]]]]]]]
  end.
  exists c. split; [exact Hc | exact Hf].
Defined.

(** Creating d9 on the example table and deleting it again. *)
Lemma create_then_delete_witness :
  absent "d9" example_db
  /\ snd (delete_deal "d9"
            (snd (post_deals example_probability "d9" 9
                    (example_body "Delta" None None) example_db)))
     = example_db.
Proof.
  split; [exact (proj2 example_db_ids)|].
  exact (create_then_delete example_probability "d9" 9
           (example_body "Delta" None None) example_db (proj2 example_db_ids)).
Defined.

(** Creating d9 on the example table and reading it back. *)
Lemma create_then_get_witness :
  absent "d9" example_db
  /\ exists row db',
       post_deals example_probability "d9" 9 (example_body "Delta" None None)
         example_db = (Reply 201 row, db')
       /\ exists v, get_deal no_directory "d9" db' = Reply 200 v /\ deal_of v = row.
Proof.
  split; [exact (proj2 example_db_ids)|].
  eexists. eexists. split; [vm_compute; reflexivity|].
  eapply (create_then_get example_probability no_directory "d9" 9
            (example_body "Delta" None None) example_db).
  - exact (proj2 example_db_ids).
  - vm_compute. reflexivity.
Defined.

(** Every write on the example table keeps its ids unique. *)
Lemma writes_keep_ids_unique_witness :
  NoDup (ids example_db)
  /\ NoDup (ids (snd (put_deal example_probability 9 "d2"
                        (example_body "Gamma" None None) example_db)))
  /\ NoDup (ids (snd (delete_deal "d2" example_db))).
Proof.
  split; [exact (proj1 example_db_ids)|].
  destruct (writes_keep_ids_unique example_probability "d9" 9 "d2"
              (example_body "Gamma" None None) (Some "gagne") example_db
              (proj1 example_db_ids)) as [_ [Hput [_ Hdel]]].
  split; [exact Hput | exact Hdel].
Defined.

(** Moving d2 to gagne and reading it back. *)
Lemma update_then_get_witness :
  NoDup (ids example_db)
  /\ exists row,
       fst (patch_deal_status example_probability 9 "d2" (Some "gagne") example_db)
       = Reply 200 row
       /\ exists v,
            get_deal no_directory "d2"
              (snd (patch_deal_status example_probability 9 "d2" (Some "gagne")
                      example_db)) = Reply 200 v
            /\ deal_of v = row.
Proof.
  split; [exact (proj1 example_db_ids)|].
  eexists. split; [vm_compute; reflexivity|].
  apply (proj2 (update_then_get example_probability no_directory 9 "d2"
                  (example_body "Gamma" None None) (Some "gagne") example_db
                  (proj1 example_db_ids))).
  vm_compute. reflexivity.
Defined.

(** The table after the transition of d2 is reachable. *)
Lemma closed_db_reachable : reachable example_probability closed_db.
Proof.
  unfold closed_db. apply reach_patch. exact example_db_reachable.
Defined.

(** The deal d2, once at gagne, carries a closing time. *)
Lemma open_deal_has_no_closing_time_witness :
  reachable example_probability closed_db
  /\ exists r,
       In r closed_db /\ closed_at r <> None
       /\ (status r = gagne \/ status r = perdu).
Proof.
  split; [exact closed_db_reachable|].
  assert (Hex : exists r, In r closed_db /\ closed_at r <> None).
  { vm_compute. eexists. split; [right; left; reflexivity | discriminate]. }
  destruct Hex as [r [Hin Hc]]. exists r. split; [exact Hin|]. split; [exact Hc|].
  exact (open_deal_has_no_closing_time example_probability closed_db
           closed_db_reachable r Hin Hc).
Defined.

(** The texts of the example table are trimmed. *)
Lemma stored_texts_trimmed_witness :
  reachable example_probability example_db
  /\ forall r, In r example_db -> tidy (title r).
Proof.
  split; [exact example_db_reachable|].
  intros r Hr.
  exact (proj1 (stored_texts_trimmed example_probability example_db
                  example_db_reachable r Hr)).
Defined.

(** Two updates of d2 in a row. *)
Lemma last_write_wins_witness :
  title_of (example_body "Gamma" (Some "perdu") None) (text_of_string "Gamma")
  /\ status_of (example_body "Gamma" (Some "perdu") None) perdu
  /\ snd (put_deal example_probability 9 "d2" (example_body "Gamma" (Some "perdu") None)
            (snd (put_deal example_probability 8 "d2"
                    (example_body "Delta" None None) example_db)))
     = snd (put_deal example_probability 9 "d2"
              (example_body "Gamma" (Some "perdu") None) example_db).
Proof.
  assert (Ht : title_of (example_body "Gamma" (Some "perdu") None)
                 (text_of_string "Gamma"))
    by (apply example_title; reflexivity).
  assert (Hs : status_of (example_body "Gamma" (Some "perdu") None) perdu)
    by reflexivity.
  split; [exact Ht|]. split; [exact Hs|].
  exact (proj1 (last_write_wins example_probability 8 9 "d2"
                  (example_body "Delta" None None) None
                  (example_body "Gamma" (Some "perdu") None)
                  (text_of_string "Gamma") perdu gagne
                  example_db Ht Hs)).
Defined.

(** Deleting d2 while the page lists the deals that match "a". *)
Lemma onDelete_matches_reload_witness :
  exists l,
    get_deals ascii_lower ascii_lower no_directory
      (only_q (text_of_string "a")) example_db = Reply 200 l
    /\ get_deals ascii_lower ascii_lower no_directory
         (only_q (text_of_string "a")) (snd (delete_deal "d2" example_db))
       = Reply 200 (DealsPage.onDelete_local "d2" l).
Proof.
  eexists. split; [reflexivity|].
  apply (onDelete_matches_reload ascii_lower ascii_lower no_directory
           (only_q (text_of_string "a")) "d2" example_db).
  reflexivity.
Defined.


(** The search text alp, typed between a no-break space and a space, with
    both selectors on all: the page shows the deal Alpha, whose lower-cased
    title matches the pattern built from alp. *)
Lemma page_filters_reach_the_server_witness :
  trimmed_of example_search (text_of_string "alp")
  /\ exists l,
       get_deals ascii_lower ascii_lower no_directory
         (DealsPage.loadDeals_query example_search "all" "all") example_db
       = Reply 200 l
       /\ map (fun v => title (deal_of v)) l = [text_of_string "Alpha"]
       /\ forall r,
            In r (map deal_of l) ->
            Sql.LIKE (ascii_lower (title r)) (text_of_string "%alp%") = true.
Proof.
  assert (Ht : trimmed_of example_search (text_of_string "alp")).
  { apply (trim_leaves example_search). discriminate. }
  split; [exact Ht|].
  destruct (page_filters_reach_the_server ascii_lower ascii_lower no_directory
              example_search "all" "all" example_db) as [l [Hl [Hiff _]]].
  exists l. split; [exact Hl|]. split.
  - vm_compute in Hl. injection Hl as <-. reflexivity.
  - intros r Hr. apply Hiff in Hr. destruct Hr as [_ [_ [_ Hq]]].
    exact (Hq (text_of_string "alp") Ht).
Defined.
